(** * FGA: fast gradient attack on a graph (deeprobust/graph/targeted_attack/fga.py)

    A shallow embedding of the class [FGA] and of the properties of its
    greedy edge-flip loop.

    Modelling conventions.
    - A float tensor is a list of rationals ([Q], exact arithmetic in place of
      rounding); a 2-D tensor is the list of its rows.  Entries are compared
      with Leibniz equality, which is finer than [Qeq].
    - Node indices and the budget are naturals (no negative indexing).
    - A Python exception is a value [Raise e] of the type [result]; the
      statements of a method are chained with the bind of that monad.
    - The surrogate model, the adjacency normalisation and the validity check
      of the base class are external collaborators: they are variables of the
      section holding the class. *)

From Stdlib Require Import QArith.
From Stdlib Require Import Lqa.
From stdpp Require Import base list strings.

Local Open Scope Q_scope.
Local Open Scope stdpp_scope.
Local Open Scope nat_scope.
Local Open Scope list_scope.

(** ** Exceptions *)

Inductive exn : Type :=
  | IndexError
  | RuntimeError
  | AttributeError
  | UnboundLocalError
  | AssertionError (msg : string)
  | ExternalError (msg : string).

Inductive result (A : Type) : Type :=
  | Ok (a : A)
  | Raise (e : exn).
Arguments Ok {A} a.
Arguments Raise {A} e.

#[global] Instance result_ret : MRet result := λ A a, Ok a.
#[global] Instance result_bind : MBind result := λ A B f r,
  match r with
  | Ok a => f a
  | Raise e => Raise e
  end.

Definition is_Ok {A} (r : result A) : Prop := ∃ a, r = Ok a.

(** ** Tensors *)

Abbreviation tensor1 := (list Q).
Abbreviation tensor2 := (list (list Q)).

(** [t[i]] for reading. *)
Definition index {A} (t : list A) (i : nat) : result A :=
  match t !! i with
  | Some x => Ok x
  | None => Raise IndexError
  end.

(** Entry [(u, v)] of a matrix, when it exists. *)
Definition cell (m : tensor2) (u v : nat) : option Q :=
  m !! u ≫= λ row, row !! v.

(** Elementwise binary operation with torch's broadcasting of two 1-D
    tensors: equal lengths, or one of them of length one. *)
Definition broadcast (f : Q → Q → Q) (a b : tensor1) : result tensor1 :=
  if decide (length a = length b) then Ok (zip_with f a b)
  else match a, b with
       | _, [y] => Ok ((λ x, f x y) <$> a)
       | [x], _ => Ok (f x <$> b)
       | _, _ => Raise RuntimeError
       end.

(** [m[i] = src]: the values of [src] are copied into row [i]. *)
Definition setitem_row (m : tensor2) (i : nat) (src : tensor1) : result tensor2 :=
  dst ← index m i;
  if decide (length src = length dst) then Ok (<[i := src]> m)
  else match src with
       | [x] => Ok (<[i := replicate (length dst) x]> m)
       | _ => Raise RuntimeError
       end.

(** [t[i] = x] for a scalar [x]. *)
Definition setitem (t : tensor1) (i : nat) (x : Q) : result tensor1 :=
  if decide (i < length t) then Ok (<[i := x]> t) else Raise IndexError.

(** [m[u][v] += x]. *)
Definition iadd_cell (m : tensor2) (u v : nat) (x : Q) : result tensor2 :=
  row ← index m u;
  c ← index row v;
  Ok (<[u := <[v := (c + x)%Q]> row]> m).

(** [torch.argmax] of a 1-D tensor: the index of the first maximal value;
    it raises on an empty tensor. *)
Definition Qltb (x y : Q) : bool := negb (Qle_bool y x).

Fixpoint argmax_from (best : nat) (best_v : Q) (i : nat) (t : tensor1) : nat :=
  match t with
  | [] => best
  | x :: t' =>
      if Qltb best_v x then argmax_from i x (S i) t'
      else argmax_from best best_v (S i) t'
  end.

Definition argmax (t : tensor1) : result nat :=
  match t with
  | [] => Raise IndexError
  | x :: t' => Ok (argmax_from 0 x 1 t')
  end.

(** [-2*x + 1], on a scalar and on a tensor. *)
Definition flip_sign (x : Q) : Q := ((-2 # 1) * x + 1)%Q.

(** ** The attack instance *)

(** The attributes of an [FGA] object that the file reads or writes.
    [adj_changes] exists only when the object was built with
    [attack_structure]; [modified_adj] is the result of the last call of
    [attack]. *)
Record FGA : Type := mkFGA {
  nnodes : nat;
  attack_structure : bool;
  attack_features : bool;
  adj_changes : option tensor1;
  feature_changes : option tensor2;
  modified_adj : option tensor2
}.

Definition with_modified_adj (self : FGA) (m : tensor2) : FGA :=
  mkFGA (nnodes self) (attack_structure self) (attack_features self)
        (adj_changes self) (feature_changes self) (Some m).

(** [assert b, msg], with assertions enabled. *)
Definition assert (b : bool) (msg : string) : result unit :=
  if b then Ok () else Raise (AssertionError msg).

(** Modelled from the spec: the constructor of the base class [BaseAttack]
    is not part of the sources; as the interface of section 6 says, it takes
    the node count and the two attack flags, which [FGA.__init__] reads back
    from the attributes of the same names, and the result field starts
    unset. *)
Definition BaseAttack_init (n : nat) (structure features : bool) : FGA :=
  mkFGA n structure features None None None.

(** [FGA.__init__(model, nnodes, feature_shape, attack_structure,
    attack_features, device)]; the surrogate model is a variable of the
    section below, the device plays no part. *)
Definition FGA_init (n : nat) (feature_shape : nat * nat)
    (structure features : bool) : result FGA :=
  let self := BaseAttack_init n structure features in
  let self :=
    if self.(attack_structure)
    then mkFGA self.(nnodes) self.(attack_structure) self.(attack_features)
               (Some (replicate n 0%Q)) self.(feature_changes) self.(modified_adj)
    else self in
  _ ← assert (negb self.(attack_features)) "not support attacking features";
  let self :=
    if self.(attack_features)
    then mkFGA self.(nnodes) self.(attack_structure) self.(attack_features)
               self.(adj_changes)
               (Some (replicate (fst feature_shape) (replicate (snd feature_shape) 0%Q)))
               self.(modified_adj)
    else self in
  Ok self.

(** One recorded flip: the chosen column and the amount added. *)
Definition flip : Type := nat * Q.

Section Attack.

(** [utils.normalize_adj_tensor]. *)
Variable normalize_adj_tensor : tensor2 → result tensor2.

(** Lines 102-105: forward pass of the surrogate, loss on the training
    nodes and gradient of the loss with respect to [adj_changes].  The
    arguments are the iteration (the autograd graph of [modified_adj] grows
    with every row write), the features, the adjacency, its normalisation,
    the labels and the training indices. *)
Variable loss_grad :
  nat → tensor2 → tensor2 → tensor2 → list nat → list nat → result tensor1.

(** [BaseAttack.check_adj], of the base class, is not part of the sources:
    it is a parameter that accepts a matrix or raises. *)
Variable check_adj : tensor2 → result unit.

Section Call.

Variable self : FGA.
Variable modified_features : tensor2.
Variable labels : list nat.
Variable idx_train : list nat.
Variable target_node : nat.

(** Lines 101-108: the choice of the column. *)
Definition select (i : nat) (modified_adj : tensor2) (adj_norm : tensor2)
    (modified_row : tensor1) : result nat :=
  if self.(attack_structure) then
    grad ← loss_grad i modified_features modified_adj adj_norm labels idx_train;
    grad ← broadcast Qmult grad (flip_sign <$> modified_row);
    grad ← setitem grad target_node 0%Q;
    argmax grad
  else Raise UnboundLocalError.

(** Lines 97-112: the body of the loop. *)
Definition attack_step (i : nat) (modified_adj : tensor2) : result (tensor2 * flip) :=
  row ← index modified_adj target_node;
  adj_changes ← from_option Ok (Raise AttributeError) self.(adj_changes);
  modified_row ← broadcast Qplus row adj_changes;
  modified_adj ← setitem_row modified_adj target_node modified_row;
  adj_norm ← normalize_adj_tensor modified_adj;
  grad_argmax ← select i modified_adj adj_norm modified_row;
  x ← index modified_row grad_argmax;
  let value := flip_sign x in
  modified_adj ← iadd_cell modified_adj target_node grad_argmax value;
  modified_adj ← iadd_cell modified_adj grad_argmax target_node value;
  Ok (modified_adj, (grad_argmax, value)).

(** Lines 96-112: [for i in range(n_perturbations)], from iteration [i]
    on, with the flips of the iterations in order. *)
Fixpoint attack_loop (n_perturbations : nat) (i : nat) (modified_adj : tensor2)
    : result (tensor2 * list flip) :=
  match n_perturbations with
  | O => Ok (modified_adj, [])
  | S n =>
      '(modified_adj, f) ← attack_step i modified_adj;
      '(modified_adj, fs) ← attack_loop n (S i) modified_adj;
      Ok (modified_adj, f :: fs)
  end.

(** [FGA.attack]: the dense working copy, the loop, the check and the
    result field. *)
Definition attack (ori_adj : tensor2) (n_perturbations : nat) : result FGA :=
  let modified_adj := ori_adj in
  '(modified_adj, _) ← attack_loop n_perturbations 0 modified_adj;
  _ ← check_adj modified_adj;
  Ok (with_modified_adj self modified_adj).

End Call.

End Attack.

(** ** Vocabulary of the specification *)

(** [A[u][v] == A[v][u]] for all pairs. *)
Definition symmetric (m : tensor2) : Prop :=
  ∀ u v, cell m u v = cell m v u.

(** An [N] by [N] matrix. *)
Definition square (N : nat) (m : tensor2) : Prop :=
  length m = N ∧ ∀ u row, m !! u = Some row → length row = N.

(** Section 4.2, step 1: the sign correction of every candidate column. *)
Definition direction (row : tensor1) : tensor1 :=
  (λ c, (-2 # 1) * c + 1)%Q <$> row.

(** Section 4.2, steps 2 and 3: gradient times direction, self entry zeroed. *)
Definition adjusted_score (grad row : tensor1) (target : nat) : tensor1 :=
  <[target := 0%Q]> (zip_with Qmult grad (direction row)).

(** Section 4.2, step 4: [best] is the first index attaining the maximum. *)
Definition first_max (score : tensor1) (best : nat) : Prop :=
  ∃ s, score !! best = Some s ∧
       (∀ j x, score !! j = Some x → (x <= s)%Q) ∧
       (∀ j x, j < best → score !! j = Some x → (x < s)%Q).

(** Section 4.2, step 5: [delta] is added to the entry [(u, v)], whatever the
    sum is. *)
Definition add_at (m : tensor2) (u v : nat) (delta : Q) : tensor2 :=
  alter (alter (λ c, (c + delta)%Q) v) u m.

(** The mirrored additions of a list of flips, in order. *)
Definition apply_flips (target : nat) (fs : list flip) (m : tensor2) : tensor2 :=
  foldl (λ m '(best, delta), add_at (add_at m target best delta) best target delta)
        m fs.

(** The relaxation vector of an instance, when it has one, holds zeros. *)
Definition relaxation_zero (self : FGA) : Prop :=
  ∀ ac, adj_changes self = Some ac → ac = replicate (nnodes self) 0%Q.

(** The instances a program can hold: built by the constructor, then used
    for any number of calls of [attack]. *)
Inductive reachable
    (normalize_adj_tensor : tensor2 → result tensor2)
    (loss_grad : nat → tensor2 → tensor2 → tensor2 → list nat → list nat → result tensor1)
    (check_adj : tensor2 → result unit) : FGA → Prop :=
  | reachable_init n feature_shape structure features self :
      FGA_init n feature_shape structure features = Ok self →
      reachable normalize_adj_tensor loss_grad check_adj self
  | reachable_attack self ori_features ori_adj labels idx_train target_node n self' :
      reachable normalize_adj_tensor loss_grad check_adj self →
      attack normalize_adj_tensor loss_grad check_adj self
             ori_features labels idx_train target_node ori_adj n = Ok self' →
      reachable normalize_adj_tensor loss_grad check_adj self'.

(** ** The scenario of section 8: a ring of four nodes *)

Definition ring4 : tensor2 :=
  [ [0; 1; 0; 1]; [1; 0; 1; 0]; [0; 1; 0; 1]; [1; 0; 1; 0] ]%Q.

(** The ring with the edge between nodes 0 and 2 added. *)
Definition ring4_chord02 : tensor2 :=
  [ [0; 1; 1; 1]; [1; 0; 1; 0]; [1; 1; 0; 1]; [1; 0; 1; 0] ]%Q.

(** The ring after three iterations on target node 1 with the stubbed
    gradient: the edges to 2 and 0 removed, the edge to 3 added. *)
Definition ring4_attacked : tensor2 :=
  [ [0; 0; 0; 1]; [0; 0; 0; 1]; [0; 0; 0; 1]; [1; 1; 1; 0] ]%Q.

(** The ring after one iteration on target node 0 with the stubbed
    gradient. *)
Definition ring4_self_flipped : tensor2 :=
  [ [2; 1; 0; 1]; [1; 0; 1; 0]; [0; 1; 0; 1]; [1; 0; 1; 0] ]%Q.

(** One feature per node, two classes. *)
Definition ring4_features : tensor2 := [ [1]; [0]; [1]; [0] ]%Q.
Definition ring4_labels : list nat := [0; 1; 0; 1].

(** A gradient oracle that always answers [0, 5, -3, 1]. *)
Definition stub_grad :
    nat → tensor2 → tensor2 → tensor2 → list nat → list nat → result tensor1 :=
  λ _ _ _ _ _ _, Ok [0; 5; -3; 1]%Q.

(** A normalisation that is of no concern to the stubbed oracle. *)
Definition stub_normalize : tensor2 → result tensor2 := Ok.

(** A check that accepts every matrix. *)
Definition stub_check : tensor2 → result unit := λ _, Ok ().

(** The instance of the scenario, as the constructor builds it. *)
Definition fga4 : FGA :=
  mkFGA 4 true false (Some [0; 0; 0; 0]%Q) None None.

(** ** Further vocabulary *)

(** Every entry of the matrix is 0 or 1, as a number. *)
Definition binary (m : tensor2) : Prop :=
  ∀ u v x, cell m u v = Some x → (x == 0 ∨ x == 1)%Q.

(** The same number of rows, and rows of the same lengths. *)
Definition same_shape (m1 m2 : tensor2) : Prop :=
  length m1 = length m2 ∧ ∀ u, length <$> m1 !! u = length <$> m2 !! u.

(** The pair of entries a flip of column [best] writes. *)
Definition flipped_pair (target best u v : nat) : Prop :=
  (u = target ∧ v = best) ∨ (u = best ∧ v = target).

(** The same entries, as numbers, at the same places. *)
Definition same_entries (m1 m2 : tensor2) : Prop :=
  ∀ u v, option_Forall2 Qeq (cell m1 u v) (cell m2 u v).

(** The number 0 or the number 1. *)
Definition zero_or_one (x : Q) : Prop := (x == 0 ∨ x == 1)%Q.

(** A whole number. *)
Definition integral (x : Q) : Prop := ∃ z : Z, (x == inject_Z z)%Q.


(** Equality of two optional entries, as numbers. *)
Definition cell_eqb (a b : option Q) : bool :=
  match a, b with
  | Some x, Some y => Qeq_bool x y
  | None, None => true
  | _, _ => false
  end.

(** Modelled from the spec: [BaseAttack.check_adj] is not part of the
    sources.  Sections 4.3 and 7 say that it verifies symmetry, entries 0
    and 1 and the absence of self-loops, and that a failure surfaces as an
    error (a "DataIntegrityError") in place of a result. *)
Definition spec_check_adj (m : tensor2) : result unit :=
  let nodes := seq 0 (length m) in
  if forallb (λ u, forallb (λ v, cell_eqb (cell m u v) (cell m v u)) nodes) nodes
     && forallb (forallb (λ x, Qeq_bool x 0 || Qeq_bool x 1)) m
     && forallb (λ u, cell_eqb (cell m u u) (Some 0%Q)) nodes
  then Ok ()
  else Raise (ExternalError "DataIntegrityError").

(** The ring with the entry (1,0) cleared and the entry (0,1) kept: not a
    symmetric matrix. *)
Definition ring4_one_way : tensor2 :=
  [ [0; 1; 0; 1]; [0; 0; 1; 0]; [0; 1; 0; 1]; [1; 0; 1; 0] ]%Q.

(** One tensor is the other, entry by entry, times [c]. *)
Definition scaled_by (c : Q) (s1 s2 : tensor1) : Prop :=
  Forall2 (λ x y, (x == c * y)%Q) s1 s2.

(** ** Further stubs for concrete runs *)

(** A gradient that grows with the iteration: [i + 1] times [0, 5, -3, 1]
    in iteration [i]. *)
Definition scaled_grad :
    nat → tensor2 → tensor2 → tensor2 → list nat → list nat → result tensor1 :=
  λ i _ _ _ _ _, Ok (Qmult (inject_Z (Z.of_nat (S i))) <$> [0; 5; -3; 1]%Q).


(** A check that accepts the matrices with entries 0 and 1 only. *)
Definition stub_check_binary : tensor2 → result unit :=
  λ m, assert (forallb (forallb (λ x, Qeq_bool x 0 || Qeq_bool x 1)) m)
              "entries should be 0 or 1".

(** A gradient that vanishes. *)
Definition zero_grad :
    nat → tensor2 → tensor2 → tensor2 → list nat → list nat → result tensor1 :=
  λ _ _ m _ _ _, Ok (replicate (length m) 0%Q).

(** A gradient computation that fails from the third iteration on. *)
Definition failing_grad :
    nat → tensor2 → tensor2 → tensor2 → list nat → list nat → result tensor1 :=
  λ i _ _ _ _ _,
    if decide (i < 2) then Ok [0; 5; -3; 1]%Q
    else Raise (ExternalError "model evaluation failed").

(** The ring after one iteration on target node 1 with the stubbed
    gradient: the edge between 1 and 2 removed. *)
Definition ring4_one_flip : tensor2 :=
  [ [0; 1; 0; 1]; [1; 0; 0; 0]; [0; 0; 0; 1]; [1; 0; 1; 0] ]%Q.

(** The ring after two iterations on target node 1 with the stubbed
    gradient: the edge between 1 and 2 removed, the edge between 1 and 3
    added. *)
Definition ring4_two_flips : tensor2 :=
  [ [0; 1; 0; 1]; [1; 0; 0; 1]; [0; 0; 0; 1]; [1; 1; 1; 0] ]%Q.

(** The ring after one iteration on target node 1 with the vanishing
    gradient: the edge between 1 and 0 removed. *)
Definition ring4_less_01 : tensor2 :=
  [ [0; 0; 0; 1]; [0; 0; 1; 0]; [0; 1; 0; 1]; [1; 0; 1; 0] ]%Q.

(** An instance built without [attack_structure], and one built for three
    nodes. *)
Definition fga4_no_structure : FGA := mkFGA 4 false false None None None.
Definition fga3 : FGA := mkFGA 3 true false (Some [0; 0; 0]%Q) None None.

(** * Facts on tensors *)

Lemma Qplus_0_r_eq (x : Q) : (x + 0)%Q = x.
Proof.
  destruct x as [a b]. unfold Qplus. simpl.
  by rewrite Z.mul_1_r, Z.add_0_r, Pos.mul_1_r.
Qed.

Lemma Qltb_lt (x y : Q) : Qltb x y = true → (x < y)%Q.
Proof.
  unfold Qltb. rewrite negb_true_iff. intros H.
  apply Qnot_le_lt. intros Hle. apply Qle_bool_iff in Hle. congruence.
Qed.

Lemma Qltb_ge (x y : Q) : Qltb x y = false → (y <= x)%Q.
Proof.
  unfold Qltb. rewrite negb_false_iff. apply Qle_bool_iff.
Qed.

Lemma index_Ok {A} (t : list A) (i : nat) (x : A) :
  index t i = Ok x ↔ t !! i = Some x.
Proof. unfold index. destruct (t !! i); split; congruence. Qed.

Lemma zip_with_zeros (row : tensor1) :
  zip_with Qplus row (replicate (length row) 0%Q) = row.
Proof.
  induction row as [|x row IH]; simpl; [done|].
  by rewrite Qplus_0_r_eq, IH.
Qed.

Lemma fmap_plus_zero (row : tensor1) : (λ x, (x + 0)%Q) <$> row = row.
Proof.
  induction row as [|x row IH]; [done|].
  by rewrite fmap_cons, Qplus_0_r_eq, IH.
Qed.

(** Inversion of a bind of the exception monad. *)
Lemma bind_Ok {A B} (r : result A) (f : A → result B) (b : B) :
  r ≫= f = Ok b ↔ ∃ a, r = Ok a ∧ f a = Ok b.
Proof.
  destruct r as [a|e]; simpl; split.
  - eauto.
  - by intros (a' & [= ->] & ?).
  - done.
  - by intros (a' & ? & ?).
Qed.

Ltac inv_bind H :=
  repeat match type of H with
  | _ ≫= _ = Ok _ =>
      let a := fresh "a" in
      let Ha := fresh "Ha" in
      apply bind_Ok in H as (a & Ha & H)
  end.

(** *** In-place addition *)

Lemma cell_add_at (m : tensor2) (a b : nat) (x : Q) (u v : nat) :
  cell (add_at m a b x) u v =
  if decide (u = a ∧ v = b) then (λ c, (c + x)%Q) <$> cell m u v else cell m u v.
Proof.
  unfold cell, add_at. rewrite list_lookup_alter.
  destruct (decide (a = u)) as [->|Hne].
  - destruct (m !! u) as [row|]; simpl.
    + rewrite list_lookup_alter.
      destruct (decide (b = v)) as [->|Hne].
      * by rewrite decide_True.
      * rewrite decide_False; [done|]. intros [_ ->]. done.
    + by destruct (decide _).
  - rewrite decide_False; [done|]. intros [-> _]. done.
Qed.

Lemma iadd_cell_Ok (m m' : tensor2) (a b : nat) (x : Q) :
  iadd_cell m a b x = Ok m' ↔ is_Some (cell m a b) ∧ m' = add_at m a b x.
Proof.
  unfold iadd_cell, cell, add_at, index.
  destruct (m !! a) as [row|] eqn:Hrow; simpl.
  - destruct (row !! b) as [c|] eqn:Hc; simpl.
    + assert (<[a:=<[b:=(c + x)%Q]> row]> m
              = alter (alter (λ c, (c + x)%Q) b) a m) as ->.
      { apply list_eq. intros j.
        rewrite list_lookup_insert, list_lookup_alter.
        destruct (decide (a = j)) as [->|].
        - rewrite Hrow. simpl. rewrite decide_True.
          + f_equal. apply list_eq. intros k.
            rewrite list_lookup_insert, list_lookup_alter.
            destruct (decide (b = k)) as [->|].
            * rewrite Hc. simpl. rewrite decide_True; [done|].
              split; [done|]. by eapply lookup_lt_Some.
            * rewrite decide_False; [done|]. by intros [? _].
          + split; [done|]. by eapply lookup_lt_Some.
        - rewrite decide_False; [done|]. by intros [? _]. }
      split; [intros [= <-]; eauto|]. by intros [_ ->].
    + split; [done|]. by intros [[? [=]] _].
  - split; [done|]. by intros [[? [=]] _].
Qed.

Lemma length_add_at (m : tensor2) (a b : nat) (x : Q) :
  length (add_at m a b x) = length m.
Proof. apply length_alter. Qed.

Lemma square_add_at (N : nat) (m : tensor2) (a b : nat) (x : Q) :
  square N m → square N (add_at m a b x).
Proof.
  intros [Hlen Hrows]. split; [by rewrite length_add_at|].
  intros u row. unfold add_at. rewrite list_lookup_alter.
  destruct (decide (a = u)) as [->|]; [|by apply Hrows].
  destruct (m !! u) as [r|] eqn:Hr; simpl; [|done].
  intros [= <-]. rewrite length_alter. by eapply Hrows.
Qed.

Lemma square_cell (N : nat) (m : tensor2) (u v : nat) :
  square N m → u < N → v < N → is_Some (cell m u v).
Proof.
  intros [Hlen Hrows] Hu Hv. unfold cell.
  destruct (lookup_lt_is_Some_2 m u) as [row Hrow]; [lia|].
  rewrite Hrow. simpl. apply lookup_lt_is_Some_2.
  by rewrite (Hrows u row).
Qed.

(** *** The row write of a zero relaxation *)

Lemma setitem_row_zero (m m' : tensor2) (t k : nat) (row mrow : tensor1) :
  m !! t = Some row →
  broadcast Qplus row (replicate k 0%Q) = Ok mrow →
  setitem_row m t mrow = Ok m' →
  mrow = row ∧ m' = m.
Proof.
  intros Hrow Hadd Hset.
  assert (mrow = row ∨ (length mrow ≠ length row ∧ length mrow ≠ 1)) as [->|[Hl1 Hl2]].
  { unfold broadcast in Hadd. rewrite length_replicate in Hadd.
    case_decide as Hk.
    - left. subst k. simplify_eq. apply zip_with_zeros.
    - destruct k as [|[|k]]; simpl in Hadd.
      + destruct row as [|x [|y row]]; simplify_eq/=. right. done.
      + left. destruct row as [|x [|y row]]; simplify_eq/=; [done|].
        apply (fmap_plus_zero (x :: y :: row)).
      + destruct row as [|x [|y row]]; simplify_eq/=. right. done. }
  - split; [done|]. unfold setitem_row, index in Hset. rewrite Hrow in Hset.
    simpl in Hset. rewrite decide_True in Hset by done.
    simplify_eq. by apply list_insert_id.
  - exfalso. unfold setitem_row, index in Hset. rewrite Hrow in Hset.
    simpl in Hset. rewrite decide_False in Hset by done.
    destruct mrow as [|x [|y mrow]]; simplify_eq/=.
Qed.

Lemma setitem_row_other (m m' : tensor2) (t : nat) (src : tensor1) (u : nat) :
  setitem_row m t src = Ok m' → u ≠ t → m' !! u = m !! u.
Proof.
  unfold setitem_row. intros H Hne. inv_bind H.
  destruct (decide _); [|destruct src as [|x [|y src]]]; simplify_eq/=;
    by rewrite list_lookup_insert_ne.
Qed.

(** *** The first maximum *)

Lemma argmax_from_spec (pre t : tensor1) (b : nat) (bv : Q) :
  pre !! b = Some bv →
  (∀ j x, pre !! j = Some x → (x <= bv)%Q) →
  (∀ j x, j < b → pre !! j = Some x → (x < bv)%Q) →
  first_max (pre ++ t) (argmax_from b bv (length pre) t).
Proof.
  revert pre b bv. induction t as [|x t IH]; intros pre b bv Hb Hmax Hfirst.
  - simpl. rewrite app_nil_r. by exists bv.
  - simpl. rewrite cons_middle, app_assoc.
    replace (S (length pre)) with (length (pre ++ [x]))
      by (rewrite length_app; simpl; lia).
    destruct (Qltb bv x) eqn:Hcmp.
    + apply Qltb_lt in Hcmp. apply IH.
      * by rewrite lookup_app_r, Nat.sub_diag.
      * intros j y Hj. apply lookup_app_Some in Hj as [Hj|[_ Hj]].
        -- apply Qlt_le_weak. eapply Qle_lt_trans; [by eapply Hmax|done].
        -- apply list_lookup_singleton_Some in Hj as [_ <-]. apply Qle_refl.
      * intros j y Hlt Hj. rewrite lookup_app_l in Hj by done.
        eapply Qle_lt_trans; [by eapply Hmax|done].
    + apply Qltb_ge in Hcmp. apply IH.
      * rewrite lookup_app_l; [done|]. by eapply lookup_lt_Some.
      * intros j y Hj. apply lookup_app_Some in Hj as [Hj|[_ Hj]].
        -- by eapply Hmax.
        -- by apply list_lookup_singleton_Some in Hj as [_ <-].
      * intros j y Hlt Hj. apply lookup_lt_Some in Hb as Hbl.
        rewrite lookup_app_l in Hj by lia. by eapply Hfirst.
Qed.

Lemma argmax_first_max (t : tensor1) (best : nat) :
  argmax t = Ok best → first_max t best.
Proof.
  destruct t as [|x t]; [done|]. simpl. intros [= <-].
  apply (argmax_from_spec [x] t 0 x); [done| |].
  - intros [|j] y Hj; simplify_eq/=. apply Qle_refl.
  - intros j y Hj. lia.
Qed.

Lemma argmax_Ok (t : tensor1) : t ≠ [] → is_Ok (argmax t).
Proof. destruct t; [done|]. intros _. by eexists. Qed.

Lemma first_max_lt (t : tensor1) (best : nat) :
  first_max t best → best < length t.
Proof. intros (s & Hs & _). by eapply lookup_lt_Some. Qed.

(** A first maximum is unique: [first_max] determines the index. *)
Lemma first_max_unique (t : tensor1) (b1 b2 : nat) :
  first_max t b1 → first_max t b2 → b1 = b2.
Proof.
  intros (s1 & H1 & Hmax1 & Hfirst1) (s2 & H2 & Hmax2 & Hfirst2).
  destruct (Nat.lt_trichotomy b1 b2) as [Hlt|[->|Hlt]]; [|done|].
  - exfalso. apply (Qlt_irrefl s1).
    eapply Qlt_le_trans; [by eapply Hfirst2|by eapply Hmax1].
  - exfalso. apply (Qlt_irrefl s2).
    eapply Qlt_le_trans; [by eapply Hfirst1|by eapply Hmax2].
Qed.

(** * Facts on the loop *)

Section AttackFacts.

Variable normalize_adj_tensor : tensor2 → result tensor2.
Variable loss_grad :
  nat → tensor2 → tensor2 → tensor2 → list nat → list nat → result tensor1.
Variable check_adj : tensor2 → result unit.

Section CallFacts.

Variable self : FGA.
Variable modified_features : tensor2.
Variable labels : list nat.
Variable idx_train : list nat.
Variable target_node : nat.

Local Abbreviation sel :=
  (select loss_grad self modified_features labels idx_train target_node).
Local Abbreviation step :=
  (attack_step normalize_adj_tensor loss_grad self modified_features
               labels idx_train target_node).
Local Abbreviation loop :=
  (attack_loop normalize_adj_tensor loss_grad self modified_features
               labels idx_train target_node).

Lemma select_inv i adj norm mrow best :
  sel i adj norm mrow = Ok best →
  attack_structure self = true ∧
  ∃ grad score,
    loss_grad i modified_features adj norm labels idx_train = Ok grad ∧
    broadcast Qmult grad (flip_sign <$> mrow) = Ok score ∧
    target_node < length score ∧
    argmax (<[target_node := 0%Q]> score) = Ok best.
Proof.
  unfold select. destruct (attack_structure self); [|done].
  intros H. split; [done|]. inv_bind H.
  unfold setitem in Ha1. case_decide; [|done]. simplify_eq.
  eauto 10.
Qed.

Lemma attack_step_inv i adj adj' best value :
  step i adj = Ok (adj', (best, value)) →
  ∃ ac row mrow adj1 norm x,
    adj_changes self = Some ac ∧
    adj !! target_node = Some row ∧
    broadcast Qplus row ac = Ok mrow ∧
    setitem_row adj target_node mrow = Ok adj1 ∧
    normalize_adj_tensor adj1 = Ok norm ∧
    sel i adj1 norm mrow = Ok best ∧
    mrow !! best = Some x ∧
    value = flip_sign x ∧
    is_Some (cell adj1 target_node best) ∧
    is_Some (cell (add_at adj1 target_node best value) best target_node) ∧
    adj' = add_at (add_at adj1 target_node best value) best target_node value.
Proof.
  unfold attack_step. intros H.
  apply bind_Ok in H as (row & Hrow%index_Ok & H1).
  destruct (adj_changes self) as [ac|]; [|done]. simpl in H1.
  apply bind_Ok in H1 as (mrow & Hmrow & H2).
  apply bind_Ok in H2 as (adj1 & Hadj1 & H3).
  apply bind_Ok in H3 as (norm & Hnorm & H4).
  apply bind_Ok in H4 as (b & Hsel & H5).
  apply bind_Ok in H5 as (x & Hx%index_Ok & H6).
  apply bind_Ok in H6 as (adj2 & [? ->]%iadd_cell_Ok & H7).
  apply bind_Ok in H7 as (adj3 & [? ->]%iadd_cell_Ok & H8).
  simplify_eq. exists ac, row, mrow, adj1, norm, x. eauto 12.
Qed.

(** With a zero relaxation the row write leaves the matrix as it is. *)
Lemma attack_step_zero_inv i adj adj' best value :
  relaxation_zero self →
  step i adj = Ok (adj', (best, value)) →
  ∃ row norm x,
    adj !! target_node = Some row ∧
    normalize_adj_tensor adj = Ok norm ∧
    sel i adj norm row = Ok best ∧
    row !! best = Some x ∧
    value = flip_sign x ∧
    adj' = add_at (add_at adj target_node best value) best target_node value.
Proof.
  intros Hzero H.
  apply attack_step_inv in H
    as (ac & row & mrow & adj1 & norm & x & Hac & Hrow & Hadd & Hset
        & Hnorm & Hsel & Hx & -> & _ & _ & ->).
  rewrite (Hzero ac Hac) in Hadd.
  destruct (setitem_row_zero _ _ _ _ _ _ Hrow Hadd Hset) as [-> ->].
  exists row, norm, x. eauto 10.
Qed.

(** Entries outside the row and the column of the target are not
    written by an iteration. *)
Lemma attack_step_frame i adj adj' f u v :
  step i adj = Ok (adj', f) →
  u ≠ target_node → v ≠ target_node →
  cell adj' u v = cell adj u v.
Proof.
  destruct f as [best value]. intros H Hu Hv.
  apply attack_step_inv in H
    as (ac & row & mrow & adj1 & norm & x & _ & _ & _ & Hset & _ & _ & _ & _ & _ & _ & ->).
  rewrite !cell_add_at.
  rewrite !decide_False by (intros [? ?]; done).
  unfold cell. by rewrite (setitem_row_other _ _ _ _ u Hset Hu).
Qed.

(** An iteration keeps a symmetric matrix symmetric. *)
Lemma attack_step_symmetric i adj adj' f :
  relaxation_zero self →
  step i adj = Ok (adj', f) →
  symmetric adj → symmetric adj'.
Proof.
  destruct f as [best value]. intros Hzero H Hsym.
  apply attack_step_zero_inv in H
    as (row & norm & x & _ & _ & _ & _ & _ & ->); [|done].
  intros u v. rewrite !cell_add_at. rewrite (Hsym v u).
  repeat case_decide; try done; exfalso; tauto.
Qed.

Lemma attack_loop_S n i adj :
  loop (S n) i adj =
  step i adj ≫= λ '(adj1, f),
    loop n (S i) adj1 ≫= λ '(adj2, fs), Ok (adj2, f :: fs).
Proof. done. Qed.

Lemma attack_loop_S_Ok n i adj out fs :
  loop (S n) i adj = Ok (out, fs) ↔
  ∃ adj1 f fs', step i adj = Ok (adj1, f) ∧
                loop n (S i) adj1 = Ok (out, fs') ∧ fs = f :: fs'.
Proof.
  rewrite attack_loop_S. split.
  - intros H. apply bind_Ok in H as ([adj1 f] & Hstep & H1).
    apply bind_Ok in H1 as ([adj2 fs'] & Hloop & H2). simplify_eq.
    by exists adj1, f, fs'.
  - intros (adj1 & f & fs' & -> & Hloop & ->). simpl. by rewrite Hloop.
Qed.

(** The state after [k] of [k + m] iterations is the result of the loop
    of [k] iterations. *)
Lemma attack_loop_split k m i adj out fs :
  loop (k + m) i adj = Ok (out, fs) →
  ∃ adj_k fs_k fs_m,
    loop k i adj = Ok (adj_k, fs_k) ∧
    loop m (i + k) adj_k = Ok (out, fs_m) ∧
    fs = fs_k ++ fs_m.
Proof.
  revert i adj fs. induction k as [|k IH]; intros i adj fs H.
  - exists adj, [], fs. by rewrite Nat.add_0_r.
  - change (S k + m) with (S (k + m)) in H.
    apply attack_loop_S_Ok in H as (adj1 & f & fs' & Hstep & Hloop & ->).
    apply IH in Hloop as (adj_k & fs_k & fs_m & Hk & Hm & ->).
    exists adj_k, (f :: fs_k), fs_m. split_and!; [|by rewrite Nat.add_succ_r|done].
    apply attack_loop_S_Ok. by exists adj1, f, fs_k.
Qed.

Lemma attack_loop_length n i adj out fs :
  loop n i adj = Ok (out, fs) → length fs = n.
Proof.
  revert i adj fs. induction n as [|n IH]; intros i adj fs H.
  - by simplify_eq/=.
  - apply attack_loop_S_Ok in H as (adj1 & f & fs' & _ & Hloop & ->).
    simpl. f_equal. by eapply IH.
Qed.

Lemma attack_loop_frame n i adj out fs u v :
  loop n i adj = Ok (out, fs) →
  u ≠ target_node → v ≠ target_node →
  cell out u v = cell adj u v.
Proof.
  intros H Hu Hv. revert i adj fs H.
  induction n as [|n IH]; intros i adj fs H.
  - by simplify_eq/=.
  - apply attack_loop_S_Ok in H as (adj1 & f & fs' & Hstep & Hloop & ->).
    rewrite (IH _ _ _ Hloop). by eapply attack_step_frame.
Qed.

Lemma attack_loop_symmetric n i adj out fs :
  relaxation_zero self →
  loop n i adj = Ok (out, fs) →
  symmetric adj → symmetric out.
Proof.
  intros Hzero. revert i adj fs.
  induction n as [|n IH]; intros i adj fs H Hsym.
  - by simplify_eq/=.
  - apply attack_loop_S_Ok in H as (adj1 & f & fs' & Hstep & Hloop & ->).
    eapply IH; [done|]. by eapply attack_step_symmetric.
Qed.

(** *** Well-shaped inputs: the iteration returns *)

Lemma broadcast_zero row :
  broadcast Qplus row (replicate (length row) 0%Q) = Ok row.
Proof.
  unfold broadcast. rewrite length_replicate, decide_True by done.
  by rewrite zip_with_zeros.
Qed.

Lemma setitem_row_same (adj : tensor2) t row :
  adj !! t = Some row → setitem_row adj t row = Ok adj.
Proof.
  intros Hrow. unfold setitem_row, index. rewrite Hrow. simpl.
  rewrite decide_True by done. by rewrite list_insert_id.
Qed.

Lemma select_total i adj norm row grad :
  attack_structure self = true →
  loss_grad i modified_features adj norm labels idx_train = Ok grad →
  length grad = length row →
  target_node < length row →
  ∃ best,
    sel i adj norm row = Ok best ∧
    argmax (adjusted_score grad row target_node) = Ok best ∧
    best < length row.
Proof.
  intros Hs Hgrad Hlen Ht.
  assert (length (adjusted_score grad row target_node) = length row) as Hsc.
  { unfold adjusted_score, direction.
    rewrite length_insert, length_zip_with, length_fmap. lia. }
  destruct (argmax_Ok (adjusted_score grad row target_node)) as [best Hbest].
  { intros Hnil. rewrite Hnil in Hsc. simpl in Hsc. lia. }
  exists best. split_and!; [|done|].
  - unfold select. rewrite Hs, Hgrad. simpl.
    unfold broadcast. rewrite length_fmap, decide_True by done. simpl.
    unfold setitem. rewrite decide_True; [done|].
    rewrite length_zip_with, length_fmap. lia.
  - rewrite <- Hsc. by apply first_max_lt, argmax_first_max.
Qed.

Lemma attack_step_total N i adj row norm grad :
  attack_structure self = true →
  adj_changes self = Some (replicate N 0%Q) →
  square N adj →
  adj !! target_node = Some row →
  normalize_adj_tensor adj = Ok norm →
  loss_grad i modified_features adj norm labels idx_train = Ok grad →
  length grad = N →
  ∃ best x,
    argmax (adjusted_score grad row target_node) = Ok best ∧
    row !! best = Some x ∧
    best < N ∧
    step i adj =
      Ok (add_at (add_at adj target_node best (flip_sign x))
                 best target_node (flip_sign x),
          (best, flip_sign x)).
Proof.
  intros Hs Hac Hsq Hrow Hnorm Hgrad Hlen.
  assert (length row = N) as Hrl by (by eapply (proj2 Hsq)).
  assert (target_node < N) as Ht.
  { rewrite <- (proj1 Hsq). by eapply lookup_lt_Some. }
  destruct (select_total i adj norm row grad) as (best & Hsel & Hbest & Hlt);
    [done|done|lia|lia|].
  destruct (lookup_lt_is_Some_2 row best Hlt) as [x Hx].
  exists best, x. split_and!; [done|done|lia|].
  unfold attack_step.
  rewrite (proj2 (index_Ok _ _ _) Hrow). simpl. rewrite Hac. simpl.
  rewrite <- Hrl, broadcast_zero. simpl.
  rewrite (setitem_row_same _ _ _ Hrow). simpl.
  rewrite Hnorm. simpl. rewrite Hsel. simpl.
  rewrite (proj2 (index_Ok _ _ _) Hx). simpl.
  rewrite (proj2 (iadd_cell_Ok adj _ target_node best (flip_sign x))
             (conj (square_cell N adj target_node best Hsq Ht ltac:(lia)) eq_refl)).
  simpl.
  rewrite (proj2 (iadd_cell_Ok _ _ best target_node (flip_sign x))
             (conj (square_cell N _ best target_node
                      (square_add_at N adj target_node best (flip_sign x) Hsq)
                      ltac:(lia) Ht) eq_refl)).
  done.
Qed.

Lemma attack_loop_total N n i adj :
  attack_structure self = true →
  adj_changes self = Some (replicate N 0%Q) →
  (∀ m, is_Ok (normalize_adj_tensor m)) →
  (∀ j m norm, ∃ grad,
      loss_grad j modified_features m norm labels idx_train = Ok grad ∧
      length grad = N) →
  square N adj →
  target_node < N →
  ∃ out fs, loop n i adj = Ok (out, fs) ∧ square N out ∧ length fs = n.
Proof.
  intros Hs Hac Hnormalize Horacle Hsq Ht. revert i adj Hsq.
  induction n as [|n IH]; intros i adj Hsq.
  - by exists adj, [].
  - destruct (lookup_lt_is_Some_2 adj target_node) as [row Hrow].
    { by rewrite (proj1 Hsq). }
    destruct (Hnormalize adj) as [norm Hnorm].
    destruct (Horacle i adj norm) as (grad & Hgrad & Hlen).
    destruct (attack_step_total N i adj row norm grad)
      as (best & x & _ & _ & _ & Hstep); [done..|].
    destruct (IH (S i) _ (square_add_at N _ best target_node (flip_sign x)
                           (square_add_at N adj target_node best (flip_sign x) Hsq)))
      as (out & fs & Hloop & Hout & Hfs).
    exists out, ((best, flip_sign x) :: fs). split_and!; [|done|simpl; lia].
    apply attack_loop_S_Ok. eauto 10.
Qed.

(** The result of the loop is its input after the recorded flips. *)
Lemma attack_loop_flips n i adj out fs :
  relaxation_zero self →
  loop n i adj = Ok (out, fs) →
  out = apply_flips target_node fs adj.
Proof.
  intros Hzero. revert i adj fs.
  induction n as [|n IH]; intros i adj fs H.
  - by simplify_eq/=.
  - apply attack_loop_S_Ok in H as (adj1 & [best value] & fs' & Hstep & Hloop & ->).
    apply IH in Hloop as ->.
    apply attack_step_zero_inv in Hstep
      as (row & norm & x & _ & _ & _ & _ & _ & ->); done.
Qed.

Lemma attack_Ok ori_adj n self' :
  attack normalize_adj_tensor loss_grad check_adj self modified_features
         labels idx_train target_node ori_adj n = Ok self' ↔
  ∃ out fs, loop n 0 ori_adj = Ok (out, fs) ∧
            check_adj out = Ok () ∧
            self' = with_modified_adj self out.
Proof.
  unfold attack. split.
  - intros H. apply bind_Ok in H as ([out fs] & Hloop & H1).
    apply bind_Ok in H1 as ([] & Hcheck & H2). simplify_eq.
    by exists out, fs.
  - intros (out & fs & -> & Hcheck & ->). simpl. by rewrite Hcheck.
Qed.

End CallFacts.

(** *** Instances *)

Lemma FGA_init_Ok n feature_shape structure features self :
  FGA_init n feature_shape structure features = Ok self ↔
  features = false ∧
  self = mkFGA n structure false
               (if structure then Some (replicate n 0%Q) else None) None None.
Proof.
  unfold FGA_init, BaseAttack_init.
  destruct structure, features; simpl; split;
    first [ by intros [_ ->] | by intros [= <-] | by intros [=] | by intros [[=] _] ].
Qed.

Lemma reachable_invariant self :
  reachable normalize_adj_tensor loss_grad check_adj self →
  attack_features self = false ∧
  adj_changes self =
    if attack_structure self then Some (replicate (nnodes self) 0%Q) else None.
Proof.
  induction 1 as [n fsh st ft self Hinit
                 |self feats adj labels idx t n self' _ IH Hatt].
  - apply FGA_init_Ok in Hinit as [-> ->]. by destruct st.
  - apply attack_Ok in Hatt as (out & fs & _ & _ & ->). done.
Qed.

Lemma reachable_relaxation_zero self :
  reachable normalize_adj_tensor loss_grad check_adj self →
  relaxation_zero self.
Proof.
  intros [_ Hac]%reachable_invariant ac Hsome. rewrite Hac in Hsome.
  destruct (attack_structure self); by simplify_eq.
Qed.

(** The result field after a call is the matrix the loop ended with. *)
Lemma attack_output self feats labels idx t ori_adj n out fs self' :
  attack_loop normalize_adj_tensor loss_grad self feats labels idx t n 0 ori_adj
    = Ok (out, fs) →
  attack normalize_adj_tensor loss_grad check_adj self feats labels idx t ori_adj n
    = Ok self' →
  modified_adj self' = Some out.
Proof.
  intros Hloop (out' & fs' & Hloop' & _ & ->)%attack_Ok.
  rewrite Hloop in Hloop'. by simplify_eq.
Qed.

Lemma bind_ext {A B} (r : result A) (f g : A → result B) :
  (∀ a, f a = g a) → r ≫= f = r ≫= g.
Proof. intros H. destruct r; simpl; [apply H|done]. Qed.

(** The training indices reach the loop only as an argument of the
    gradient computation. *)
Lemma attack_loop_idx_train self feats labels idx idx' t n i adj :
  (∀ j m norm, loss_grad j feats m norm labels idx
               = loss_grad j feats m norm labels idx') →
  attack_loop normalize_adj_tensor loss_grad self feats labels idx t n i adj =
  attack_loop normalize_adj_tensor loss_grad self feats labels idx' t n i adj.
Proof.
  intros Hagree. revert i adj. induction n as [|n IH]; intros i adj; [done|].
  simpl.
  assert (attack_step normalize_adj_tensor loss_grad self feats labels idx t i adj
          = attack_step normalize_adj_tensor loss_grad self feats labels idx' t i adj)
    as ->.
  { unfold attack_step. do 5 (apply bind_ext; intros ?).
    f_equal. unfold select. by rewrite Hagree. }
  apply bind_ext. intros [adj1 f]. by rewrite IH.
Qed.

(** The self entry of the target is written only by a flip whose column is
    the target itself. *)
Lemma apply_flips_self_entry t (fs : list flip) (m : tensor2) :
  (∀ best delta, (best, delta) ∈ fs → best ≠ t) →
  cell (apply_flips t fs m) t t = cell m t t.
Proof.
  revert m. induction fs as [|[best delta] fs IH]; intros m Hne; [done|].
  simpl. rewrite IH.
  - assert (best ≠ t) as Hb by (eapply Hne; left).
    rewrite !cell_add_at. by rewrite !decide_False by (intros [? ?]; done).
  - intros b d Hin. eapply Hne. by right.
Qed.

Lemma attack_loop_self_entry self feats labels idx t n i adj out fs :
  relaxation_zero self →
  attack_loop normalize_adj_tensor loss_grad self feats labels idx t n i adj
    = Ok (out, fs) →
  (∀ best delta, (best, delta) ∈ fs → best ≠ t) →
  cell out t t = cell adj t t.
Proof.
  intros Hzero Hloop Hne.
  rewrite (attack_loop_flips self feats labels idx t n i adj out fs Hzero Hloop).
  by apply apply_flips_self_entry.
Qed.

(** * The claims *)

(** C3. For a symmetric input adjacency and an instance in use, the matrix
    is symmetric at the end of every iteration of the loop of [attack] and
    in the final output: [A[u][v] = A[v][u]] for all pairs. *)
Theorem symmetry_preserved self feats labels idx t ori_adj n out fs :
  reachable normalize_adj_tensor loss_grad check_adj self →
  symmetric ori_adj →
  attack_loop normalize_adj_tensor loss_grad self feats labels idx t n 0 ori_adj
    = Ok (out, fs) →
  symmetric out ∧
  (∀ k, k ≤ n →
     ∃ adj_k fs_k,
       attack_loop normalize_adj_tensor loss_grad self feats labels idx t k 0 ori_adj
         = Ok (adj_k, fs_k) ∧
       symmetric adj_k) ∧
  (∀ self',
     attack normalize_adj_tensor loss_grad check_adj self feats labels idx t ori_adj n
       = Ok self' →
     modified_adj self' = Some out).
Proof.
  intros Hreach%reachable_relaxation_zero Hsym Hloop. split_and!.
  - by eapply attack_loop_symmetric.
  - intros k Hk. replace n with (k + (n - k)) in Hloop by lia.
    apply attack_loop_split in Hloop as (adj_k & fs_k & _ & Hloop_k & _ & _).
    exists adj_k, fs_k. split; [done|]. by eapply attack_loop_symmetric.
  - intros self'. by apply attack_output with (fs := fs).
Qed.

(** C9. Only the row and the column of the target node are written by the
    loop: every entry [(u, v)] with [u] and [v] both different from the
    target is in the output what it was in the input. *)
Theorem only_target_row_and_column_written
    self feats labels idx t ori_adj n out fs :
  attack_loop normalize_adj_tensor loss_grad self feats labels idx t n 0 ori_adj
    = Ok (out, fs) →
  (∀ u v, u ≠ t → v ≠ t → cell out u v = cell ori_adj u v) ∧
  (∀ self',
     attack normalize_adj_tensor loss_grad check_adj self feats labels idx t ori_adj n
       = Ok self' →
     modified_adj self' = Some out).
Proof.
  intros Hloop. split.
  - intros u v. by eapply attack_loop_frame.
  - intros self'. by apply attack_output with (fs := fs).
Qed.

(** C4. On a well-shaped input an iteration of the loop selects and applies
    its flip as section 4.2 says: with the current row of the target,
    (1) the direction of column [c] is [-2 * row[c] + 1], (2) the adjusted
    score is the gradient times the direction, (3) with the entry of the
    target set to 0, (4) [best] is the first index attaining the maximum of
    the adjusted score, and (5) [delta = -2 * row[best] + 1] is added to
    the entries [(target, best)] and [(best, target)], without clamping. *)
Theorem step_follows_selector self feats labels idx t N i adj row norm grad :
  reachable normalize_adj_tensor loss_grad check_adj self →
  attack_structure self = true →
  nnodes self = N →
  square N adj →
  adj !! t = Some row →
  normalize_adj_tensor adj = Ok norm →
  loss_grad i feats adj norm labels idx = Ok grad →
  length grad = N →
  ∃ best delta,
    first_max (adjusted_score grad row t) best ∧
    direction row !! best = Some delta ∧
    attack_step normalize_adj_tensor loss_grad self feats labels idx t i adj
      = Ok (add_at (add_at adj t best delta) best t delta, (best, delta)).
Proof.
  intros [_ Hac]%reachable_invariant Hs HN Hsq Hrow Hnorm Hgrad Hlen.
  rewrite Hs, HN in Hac.
  destruct (attack_step_total self feats labels idx t N i adj row norm grad)
    as (best & x & Hbest & Hx & _ & Hstep); [done..|].
  exists best, (flip_sign x). split_and!; [|unfold direction|done].
  - by apply argmax_first_max.
  - by rewrite list_lookup_fmap, Hx.
Qed.



(** C6, as the code has it. [attack] does not look at the training indices:
    it hands them to the gradient computation and raises no error of its
    own for an empty set.  When the gradient computation answers on the
    empty set as on another set, the outcome of [attack] is the same for
    both; with a budget of 0 the gradient is not computed and the outcome
    is that of the check of the input. *)
Theorem train_indices_not_validated self feats labels idx t ori_adj n :
  (∀ j m norm, loss_grad j feats m norm labels []
               = loss_grad j feats m norm labels idx) →
  attack normalize_adj_tensor loss_grad check_adj self feats labels [] t ori_adj n =
  attack normalize_adj_tensor loss_grad check_adj self feats labels idx t ori_adj n ∧
  attack normalize_adj_tensor loss_grad check_adj self feats labels [] t ori_adj 0 =
  check_adj ori_adj ≫= (λ _, Ok (with_modified_adj self ori_adj)).
Proof.
  intros Hagree. split; [|done]. unfold attack.
  by rewrite (attack_loop_idx_train self feats labels [] idx t n 0 ori_adj Hagree).
Qed.

(** C8, as the code has it. With [n_perturbations = 0], for every input
    that the check of the base class accepts, no flip is applied and the
    output adjacency stored by [attack] has the entries of the input
    exactly. *)
Theorem zero_budget_output_is_input self feats labels idx t ori_adj :
  check_adj ori_adj = Ok () →
  attack_loop normalize_adj_tensor loss_grad self feats labels idx t 0 0 ori_adj
    = Ok (ori_adj, []) ∧
  attack normalize_adj_tensor loss_grad check_adj self feats labels idx t ori_adj 0
    = Ok (with_modified_adj self ori_adj) ∧
  modified_adj (with_modified_adj self ori_adj) = Some ori_adj.
Proof.
  intros Hcheck. split_and!; [done| |done].
  unfold attack. simpl. by rewrite Hcheck.
Qed.

(** With a budget of 0, an input that the check rejects makes the call
    raise the error of the check; nothing is stored. *)
Lemma zero_budget_rejected_input_raises self feats labels idx t ori_adj e :
  check_adj ori_adj = Raise e →
  attack normalize_adj_tensor loss_grad check_adj self feats labels idx t ori_adj 0
    = Raise e.
Proof. intros Hcheck. unfold attack. simpl. by rewrite Hcheck. Qed.

(** C10. The relaxation vector [adj_changes] is all zeros from the
    constructor on and no call of [attack] writes it: on every instance in
    use it is the zero vector, a call leaves it as it is, and adding it to
    the row of the target changes neither the row nor the matrix. *)
Theorem adj_changes_stays_zero self :
  reachable normalize_adj_tensor loss_grad check_adj self →
  attack_structure self = true →
  adj_changes self = Some (replicate (nnodes self) 0%Q) ∧
  (∀ feats labels idx t ori_adj n self',
     attack normalize_adj_tensor loss_grad check_adj self feats labels idx t ori_adj n
       = Ok self' →
     adj_changes self' = adj_changes self ∧
     reachable normalize_adj_tensor loss_grad check_adj self') ∧
  (∀ ac (m : tensor2) t row mrow m',
     adj_changes self = Some ac →
     m !! t = Some row →
     broadcast Qplus row ac = Ok mrow →
     setitem_row m t mrow = Ok m' →
     mrow = row ∧ m' = m).
Proof.
  intros Hreach Hs. split_and!.
  - destruct (reachable_invariant _ Hreach) as [_ Hac]. by rewrite Hs in Hac.
  - intros feats labels idx t ori_adj n self' Hatt. split.
    + by apply attack_Ok in Hatt as (out & fs & _ & _ & ->).
    + by eapply reachable_attack.
  - intros ac m t row mrow m' Hac Hrow Hadd Hset.
    rewrite (reachable_relaxation_zero _ Hreach ac Hac) in Hadd.
    by eapply setitem_row_zero.
Qed.

End AttackFacts.

(** C7. Building the attack with [attack_features = true] fails at once in
    the constructor, with the assertion error saying that attacking features
    is not supported; no instance is built for such a request. *)
Theorem attack_features_not_supported n feature_shape structure :
  FGA_init n feature_shape structure true
  = Raise (AssertionError "not support attacking features").
Proof. by destruct structure. Qed.

(** * The scenario of section 8 and concrete runs *)

(** When every other adjusted score is negative the zeroed entry of the
    target is the maximum, and it is the one selected. *)
Lemma first_max_target_when_negative (grad row : tensor1) (t best : nat) :
  t < length grad → t < length row →
  (∀ c x, c ≠ t → adjusted_score grad row t !! c = Some x → (x < 0)%Q) →
  first_max (adjusted_score grad row t) best →
  best = t.
Proof.
  intros Hg Hr Hneg (s & Hs & Hmax & _).
  destruct (decide (best = t)) as [|Hne]; [done|exfalso].
  apply (Qlt_irrefl 0). eapply Qle_lt_trans; [|by eapply Hneg].
  apply (Hmax t). unfold adjusted_score, direction.
  apply list_lookup_insert_eq. rewrite length_zip_with, length_fmap. lia.
Qed.

(** C1, as the code has it. In the scenario of the ring of four nodes with
    target 0, budget 1 and the gradient [0, 5, -3, 1], the adjusted score is
    [0, -5, -3, -1] with the entry of the target zeroed; index 2 is not the
    first maximum of that vector and is not the selected index; the edge
    between 0 and 2 is not toggled: the entries (0,2) and (2,0) of the
    resulting adjacency are 0, as in the input. *)
Theorem ring4_scenario :
  adjusted_score [0; 5; -3; 1]%Q [0; 1; 0; 1]%Q 0 = [0; -5; -3; -1]%Q ∧
  ¬ first_max [0; -5; -3; -1]%Q 2 ∧
  select stub_grad fga4 ring4_features ring4_labels [1; 2] 0 0 ring4 ring4
         [0; 1; 0; 1]%Q ≠ Ok 2 ∧
  ∃ out fs,
    attack_loop stub_normalize stub_grad fga4 ring4_features ring4_labels [1; 2]
                0 1 0 ring4 = Ok (out, fs) ∧
    cell out 0 2 = Some 0%Q ∧ cell ring4 0 2 = Some 0%Q ∧
    cell out 2 0 = Some 0%Q ∧ cell ring4 2 0 = Some 0%Q.
Proof.
  split_and!.
  - reflexivity.
  - intros (s & Hs & Hmax & _). simplify_eq/=.
    specialize (Hmax 0 0%Q eq_refl). by vm_compute in Hmax.
  - by vm_compute.
  - exists ring4_self_flipped, [(0, 1%Q)]. split_and!; by vm_compute.
Qed.

(** The scenario as the specification states it fails on the code: index 2
    is not selected, and the loop does not end with the edge between 0 and 2
    added. *)
Lemma ring4_scenario_not_as_stated :
  ¬ (adjusted_score [0; 5; -3; 1]%Q [0; 1; 0; 1]%Q 0 = [0; -5; -3; -1]%Q ∧
     select stub_grad fga4 ring4_features ring4_labels [1; 2] 0 0 ring4 ring4
            [0; 1; 0; 1]%Q = Ok 2 ∧
     ∃ fs, attack_loop stub_normalize stub_grad fga4 ring4_features ring4_labels
                       [1; 2] 0 1 0 ring4 = Ok (ring4_chord02, fs)).
Proof. intros (_ & Hsel & _). by vm_compute in Hsel. Qed.

(** C2, on the code. In the scenario of the ring the selected column is the
    target itself, and its self entry is written: it is 0 in the input and 2
    in the output. *)
Theorem self_entry_selected_and_written :
  select stub_grad fga4 ring4_features ring4_labels [1; 2] 0 0 ring4 ring4
         [0; 1; 0; 1]%Q = Ok 0 ∧
  attack_loop stub_normalize stub_grad fga4 ring4_features ring4_labels [1; 2]
              0 1 0 ring4 = Ok (ring4_self_flipped, [(0, 1%Q)]) ∧
  attack stub_normalize stub_grad stub_check fga4 ring4_features ring4_labels [1; 2]
         0 ring4 1 = Ok (with_modified_adj fga4 ring4_self_flipped) ∧
  cell ring4 0 0 = Some 0%Q ∧
  cell ring4_self_flipped 0 0 = Some 2%Q.
Proof. split_and!; by vm_compute. Qed.

(** An empty training set is accepted: with a budget of 0 the call returns
    the input, and with the stubbed gradient a budget of 1 is carried out. *)
Lemma empty_train_indices_accepted :
  attack stub_normalize stub_grad stub_check fga4 ring4_features ring4_labels []
         1 ring4 0 = Ok (with_modified_adj fga4 ring4) ∧
  attack stub_normalize stub_grad stub_check fga4 ring4_features ring4_labels []
         1 ring4 1
  = Ok (with_modified_adj fga4
          [ [0; 1; 0; 1]; [1; 0; 0; 0]; [0; 0; 0; 1]; [1; 0; 1; 0] ]%Q).
Proof. split; by vm_compute. Qed.

(** A budget of 0 does not give an output for every input: on a matrix
    that is not symmetric the check fails and the call raises. *)
Lemma zero_budget_no_output_for_rejected_input :
  attack stub_normalize stub_grad spec_check_adj fga4 ring4_features ring4_labels
         [1; 2] 1 ring4_one_way 0
  = Raise (ExternalError "DataIntegrityError") ∧
  ¬ ∃ self', attack stub_normalize stub_grad spec_check_adj fga4 ring4_features
                    ring4_labels [1; 2] 1 ring4_one_way 0 = Ok self'.
Proof. split; [by vm_compute|]. intros [self' H]. by vm_compute in H. Qed.

(** ** Runs on the ring with target node 1 *)

Lemma zero_budget_output_is_input_witness :
  spec_check_adj ring4 = Ok () ∧
  attack_loop stub_normalize stub_grad fga4 ring4_features ring4_labels [1; 2]
              1 0 0 ring4 = Ok (ring4, []) ∧
  attack stub_normalize stub_grad spec_check_adj fga4 ring4_features ring4_labels
         [1; 2] 1 ring4 0 = Ok (with_modified_adj fga4 ring4) ∧
  modified_adj (with_modified_adj fga4 ring4) = Some ring4.
Proof.
  split; [vm_compute; reflexivity|].
  apply (zero_budget_output_is_input stub_normalize stub_grad spec_check_adj fga4
           ring4_features ring4_labels [1; 2] 1 ring4).
  vm_compute. reflexivity.
Defined.


Lemma symmetry_preserved_witness :
  symmetric ring4 ∧
  symmetric ring4_attacked ∧
  (∀ k, k ≤ 3 →
     ∃ adj_k fs_k,
       attack_loop stub_normalize stub_grad fga4 ring4_features ring4_labels [1; 2]
                   1 k 0 ring4 = Ok (adj_k, fs_k) ∧
       symmetric adj_k) ∧
  (∀ self',
     attack stub_normalize stub_grad stub_check fga4 ring4_features ring4_labels [1; 2]
            1 ring4 3 = Ok self' →
     modified_adj self' = Some ring4_attacked).
Proof.
  assert (symmetric ring4) as Hsym.
  { intros [|[|[|[|u]]]] [|[|[|[|v]]]]; reflexivity. }
  split; [exact Hsym|].
  apply (symmetry_preserved stub_normalize stub_grad stub_check fga4
           ring4_features ring4_labels [1; 2] 1 ring4 3 ring4_attacked
           [(2, (-1)%Q); (3, 1%Q); (0, (-1)%Q)]).
  - apply (reachable_init _ _ _ 4 (0, 0) true false). reflexivity.
  - exact Hsym.
  - vm_compute. reflexivity.
Defined.

Lemma only_target_row_and_column_written_witness :
  (∀ u v, u ≠ 1 → v ≠ 1 → cell ring4_attacked u v = cell ring4 u v) ∧
  (∀ self',
     attack stub_normalize stub_grad stub_check fga4 ring4_features ring4_labels [1; 2]
            1 ring4 3 = Ok self' →
     modified_adj self' = Some ring4_attacked).
Proof.
  apply (only_target_row_and_column_written stub_normalize stub_grad stub_check fga4
           ring4_features ring4_labels [1; 2] 1 ring4 3 ring4_attacked
           [(2, (-1)%Q); (3, 1%Q); (0, (-1)%Q)]).
  vm_compute. reflexivity.
Defined.

Lemma step_follows_selector_witness :
  ∃ best delta,
    first_max (adjusted_score [0; 5; -3; 1]%Q [1; 0; 1; 0]%Q 1) best ∧
    direction [1; 0; 1; 0]%Q !! best = Some delta ∧
    attack_step stub_normalize stub_grad fga4 ring4_features ring4_labels [1; 2]
                1 0 ring4
    = Ok (add_at (add_at ring4 1 best delta) best 1 delta, (best, delta)).
Proof.
  apply (step_follows_selector stub_normalize stub_grad stub_check fga4
           ring4_features ring4_labels [1; 2] 1 4 0 ring4 [1; 0; 1; 0]%Q ring4
           [0; 5; -3; 1]%Q).
  - apply (reachable_init _ _ _ 4 (0, 0) true false). reflexivity.
  - reflexivity.
  - reflexivity.
  - split; [reflexivity|].
    intros [|[|[|[|u]]]] row Hrow; simpl in Hrow; inversion Hrow; reflexivity.
  - reflexivity.
  - reflexivity.
  - reflexivity.
  - reflexivity.
Defined.


Lemma train_indices_not_validated_witness :
  attack stub_normalize stub_grad stub_check fga4 ring4_features ring4_labels []
         1 ring4 3 =
  attack stub_normalize stub_grad stub_check fga4 ring4_features ring4_labels [1; 2]
         1 ring4 3 ∧
  attack stub_normalize stub_grad stub_check fga4 ring4_features ring4_labels []
         1 ring4 0 =
  stub_check ring4 ≫= (λ _, Ok (with_modified_adj fga4 ring4)).
Proof.
  apply (train_indices_not_validated stub_normalize stub_grad stub_check fga4
           ring4_features ring4_labels [1; 2] 1 ring4 3).
  intros j m norm. reflexivity.
Defined.

Lemma adj_changes_stays_zero_witness :
  adj_changes fga4 = Some (replicate (nnodes fga4) 0%Q) ∧
  (∀ feats labels idx t ori_adj n self',
     attack stub_normalize stub_grad stub_check fga4 feats labels idx t ori_adj n
       = Ok self' →
     adj_changes self' = adj_changes fga4 ∧
     reachable stub_normalize stub_grad stub_check self') ∧
  (∀ ac (m : tensor2) t row mrow m',
     adj_changes fga4 = Some ac →
     m !! t = Some row →
     broadcast Qplus row ac = Ok mrow →
     setitem_row m t mrow = Ok m' →
     mrow = row ∧ m' = m).
Proof.
  apply (adj_changes_stays_zero stub_normalize stub_grad stub_check fga4).
  - apply (reachable_init _ _ _ 4 (0, 0) true false). reflexivity.
  - reflexivity.
Defined.

(** * Further facts on tensors *)

Lemma same_shape_refl (m : tensor2) : same_shape m m.
Proof. done. Qed.

Lemma same_shape_trans (m1 m2 m3 : tensor2) :
  same_shape m1 m2 → same_shape m2 m3 → same_shape m1 m3.
Proof.
  intros [Hl1 Hr1] [Hl2 Hr2]. split; [congruence|].
  intros u. by rewrite Hr1.
Qed.

Lemma add_at_same_shape (m : tensor2) (a b : nat) (x : Q) :
  same_shape (add_at m a b x) m.
Proof.
  split; [apply length_add_at|]. intros u. unfold add_at.
  rewrite list_lookup_alter. case_decide; [subst|done].
  destruct (m !! u); simpl; [|done]. f_equal. apply length_alter.
Qed.

Lemma setitem_row_same_shape (m m' : tensor2) (t : nat) (src : tensor1) :
  setitem_row m t src = Ok m' → same_shape m' m.
Proof.
  unfold setitem_row. intros H.
  apply bind_Ok in H as (dst & Hdst%index_Ok & H1).
  assert (∀ r : tensor1, length r = length dst → same_shape (<[t:=r]> m) m) as Hins.
  { intros r Hr. split; [apply length_insert|]. intros u.
    rewrite list_lookup_insert.
    destruct (decide (t = u ∧ t < length m)) as [[<- _]|]; [|done].
    rewrite Hdst. simpl. by rewrite Hr. }
  case_decide.
  - simplify_eq. by apply Hins.
  - destruct src as [|x [|y src]]; simplify_eq.
    apply Hins. by rewrite length_replicate.
Qed.

Lemma same_shape_cell (m1 m2 : tensor2) (u v : nat) :
  same_shape m1 m2 → is_Some (cell m1 u v) → is_Some (cell m2 u v).
Proof.
  intros [_ Hrows]. specialize (Hrows u). unfold cell.
  destruct (m1 !! u) as [r1|], (m2 !! u) as [r2|]; simplify_eq/=;
    try by intros [? [=]].
  rewrite !lookup_lt_is_Some. congruence.
Qed.

Lemma same_shape_square (N : nat) (m1 m2 : tensor2) :
  same_shape m1 m2 → square N m2 → square N m1.
Proof.
  intros [Hlen Hrows] [HN Hsq]. split; [congruence|].
  intros u row Hrow. specialize (Hrows u). rewrite Hrow in Hrows.
  destruct (m2 !! u) as [r2|] eqn:Hr2; simplify_eq/=.
  rewrite Hrows. by eapply Hsq.
Qed.

Lemma is_Some_cell_add_at (m : tensor2) (a b : nat) (x : Q) (u v : nat) :
  is_Some (cell (add_at m a b x) u v) ↔ is_Some (cell m u v).
Proof.
  rewrite cell_add_at. case_decide; [|done]. by rewrite fmap_is_Some.
Qed.

(** The entries that a list of flips leaves alone. *)
Lemma apply_flips_frame t (fs : list flip) (m : tensor2) (u v : nat) :
  (∀ best delta, (best, delta) ∈ fs → ¬ flipped_pair t best u v) →
  cell (apply_flips t fs m) u v = cell m u v.
Proof.
  revert m. induction fs as [|[best delta] fs IH]; intros m Hout; [done|].
  simpl. rewrite IH.
  - assert (¬ flipped_pair t best u v) as Hb by (eapply Hout; left).
    rewrite !cell_add_at.
    rewrite !decide_False; [done| |]; intros [? ?]; apply Hb; [left|right]; done.
  - intros b d Hin. eapply Hout. by right.
Qed.

Lemma apply_flips_same_shape t (fs : list flip) (m : tensor2) :
  same_shape (apply_flips t fs m) m.
Proof.
  revert m. induction fs as [|[best delta] fs IH]; intros m; [done|].
  simpl. eapply same_shape_trans; [apply IH|].
  eapply same_shape_trans; apply add_at_same_shape.
Qed.

(** * Further facts on the loop *)

Section MoreFacts.

Variable normalize_adj_tensor : tensor2 → result tensor2.
Variable loss_grad :
  nat → tensor2 → tensor2 → tensor2 → list nat → list nat → result tensor1.
Variable check_adj : tensor2 → result unit.

Section MoreCallFacts.

Variable self : FGA.
Variable modified_features : tensor2.
Variable labels : list nat.
Variable idx_train : list nat.
Variable target_node : nat.

Local Abbreviation step :=
  (attack_step normalize_adj_tensor loss_grad self modified_features
               labels idx_train target_node).
Local Abbreviation loop :=
  (attack_loop normalize_adj_tensor loss_grad self modified_features
               labels idx_train target_node).
Local Abbreviation run :=
  (attack normalize_adj_tensor loss_grad check_adj self modified_features
          labels idx_train target_node).
Local Abbreviation in_use :=
  (reachable normalize_adj_tensor loss_grad check_adj).

(** An iteration on an instance with a zero relaxation, in terms of the
    entries it reads and writes. *)
Lemma attack_step_zero_cells i adj adj' best value :
  relaxation_zero self →
  step i adj = Ok (adj', (best, value)) →
  ∃ x, cell adj target_node best = Some x ∧
       value = flip_sign x ∧
       is_Some (cell adj best target_node) ∧
       adj' = add_at (add_at adj target_node best value) best target_node value.
Proof.
  intros Hzero H.
  apply attack_step_inv in H
    as (ac & row & mrow & adj1 & norm & x & Hac & Hrow & Hadd & Hset
        & _ & _ & Hx & -> & _ & Hbt & ->).
  rewrite (Hzero ac Hac) in Hadd.
  destruct (setitem_row_zero _ _ _ _ _ _ Hrow Hadd Hset) as [-> ->].
  exists x. split_and!; [|done| |done].
  - unfold cell. by rewrite Hrow.
  - by apply is_Some_cell_add_at in Hbt.
Qed.

Lemma attack_step_same_shape i adj adj' f :
  step i adj = Ok (adj', f) → same_shape adj' adj.
Proof.
  destruct f as [best value]. intros H.
  apply attack_step_inv in H
    as (ac & row & mrow & adj1 & norm & x & _ & _ & _ & Hset
        & _ & _ & _ & _ & _ & _ & ->).
  eapply same_shape_trans; [apply add_at_same_shape|].
  eapply same_shape_trans; [apply add_at_same_shape|].
  by eapply setitem_row_same_shape.
Qed.

Lemma attack_loop_same_shape n i adj out fs :
  loop n i adj = Ok (out, fs) → same_shape out adj.
Proof.
  revert i adj fs. induction n as [|n IH]; intros i adj fs H.
  - by simplify_eq/=.
  - apply attack_loop_S_Ok in H as (adj1 & f & fs' & Hstep & Hloop & ->).
    eapply same_shape_trans; [by eapply IH|by eapply attack_step_same_shape].
Qed.

(** X1. A call of [attack] that returns stores a matrix of the shape of the
    input: the same number of rows and the same length of every row; an
    [N] by [N] input gives an [N] by [N] output. *)
Theorem output_has_input_shape ori_adj n self' :
  attack normalize_adj_tensor loss_grad check_adj self modified_features
      labels idx_train target_node ori_adj n = Ok self' →
  ∃ out, modified_adj self' = Some out ∧
         same_shape out ori_adj ∧
         ∀ N, square N ori_adj → square N out.
Proof.
  intros (out & fs & Hloop & _ & ->)%attack_Ok.
  apply attack_loop_same_shape in Hloop.
  exists out. split_and!; [done|done|].
  intros N. by apply same_shape_square.
Qed.

(** Every recorded flip names a column at which the row of the target and
    the column of the target have an entry. *)
Lemma attack_loop_flips_in_range n i adj out fs best delta :
  relaxation_zero self →
  loop n i adj = Ok (out, fs) →
  (best, delta) ∈ fs →
  is_Some (cell adj target_node best) ∧ is_Some (cell adj best target_node).
Proof.
  intros Hzero. revert i adj fs.
  induction n as [|n IH]; intros i adj fs H Hin.
  - simplify_eq/=. by apply elem_of_nil in Hin.
  - apply attack_loop_S_Ok in H as (adj1 & [b v] & fs' & Hstep & Hloop & ->).
    apply attack_step_zero_cells in Hstep as (x & Hx & -> & Hbt & ->); [|done].
    apply elem_of_cons in Hin as [[= -> ->]|Hin].
    + split; [by rewrite Hx|done].
    + destruct (IH _ _ _ Hloop Hin) as [H1 H2].
      by rewrite !is_Some_cell_add_at in H1, H2.
Qed.

(** X2. Within the row and the column of the target, the loop writes only
    the entries of the columns it selected: an entry that is not one of the
    pairs [(target, best)], [(best, target)] of a recorded flip is in the
    output what it was in the input; and every selected column is an index
    of the row and of the column of the target. *)
Theorem only_selected_pairs_written n i adj out fs :
  reachable normalize_adj_tensor loss_grad check_adj self →
  attack_loop normalize_adj_tensor loss_grad self modified_features
      labels idx_train target_node n i adj = Ok (out, fs) →
  (∀ u v,
     (∀ best delta, (best, delta) ∈ fs → ¬ flipped_pair target_node best u v) →
     cell out u v = cell adj u v) ∧
  (∀ best delta,
     (best, delta) ∈ fs →
     is_Some (cell adj target_node best) ∧ is_Some (cell adj best target_node)).
Proof.
  intros Hzero%reachable_relaxation_zero Hloop. split.
  - intros u v Hout.
    rewrite (attack_loop_flips _ _ _ _ _ _ _ _ _ _ _ _ Hzero Hloop).
    by apply apply_flips_frame.
  - intros best delta. by eapply attack_loop_flips_in_range.
Qed.


(** *** Arithmetic of a flip *)

Lemma flip_sign_zero_or_one (x : Q) :
  zero_or_one x →
  zero_or_one (x + flip_sign x) ∧ (flip_sign x == 1 ∨ flip_sign x == -1)%Q.
Proof. unfold zero_or_one, flip_sign. intros [H|H]; split; lra. Qed.

Lemma flip_sign_twice (x : Q) :
  (flip_sign (x + flip_sign x) == - flip_sign x)%Q.
Proof. unfold flip_sign. lra. Qed.

Lemma self_flip_integral (x : Q) :
  integral x →
  integral (x + flip_sign x + flip_sign x) ∧
  ¬ zero_or_one (x + flip_sign x + flip_sign x).
Proof.
  intros [z Hz]. split.
  - exists (2 - 3 * z)%Z. unfold flip_sign. rewrite Hz.
    unfold Qeq, Qplus, Qmult, inject_Z. simpl. lia.
  - unfold zero_or_one, flip_sign. rewrite Hz.
    unfold Qeq, Qplus, Qmult, inject_Z. simpl. lia.
Qed.

Lemma zero_or_one_integral (x : Q) : zero_or_one x → integral x.
Proof. intros [H|H]; [by exists 0%Z|by exists 1%Z]. Qed.

(** X3. When an iteration selects the target itself, both additions fall on
    the self entry: an entry [x] becomes [x + 2 * (-2 * x + 1)], every other
    entry is kept, and a self entry that was 0 or 1 is neither afterwards. *)
Theorem self_selection_writes_self_entry_twice i adj adj' value :
  reachable normalize_adj_tensor loss_grad check_adj self →
  attack_step normalize_adj_tensor loss_grad self modified_features
      labels idx_train target_node i adj = Ok (adj', (target_node, value)) →
  ∃ x, cell adj target_node target_node = Some x ∧
       value = flip_sign x ∧
       cell adj' target_node target_node = Some (x + value + value)%Q ∧
       (∀ u v, ¬ (u = target_node ∧ v = target_node) → cell adj' u v = cell adj u v) ∧
       (zero_or_one x → ¬ zero_or_one (x + value + value)).
Proof.
  intros Hzero%reachable_relaxation_zero Hstep.
  apply attack_step_zero_cells in Hstep as (x & Hx & -> & _ & ->); [|done].
  exists x. split_and!; [done|done| | |].
  - rewrite !cell_add_at, !decide_True by done. by rewrite Hx.
  - intros u v Hne. rewrite !cell_add_at. by rewrite !decide_False.
  - intros Hx01. by apply self_flip_integral, zero_or_one_integral.
Qed.

(** X4. On a matrix of entries 0 and 1, when two successive iterations
    select the same column, not the target, the first addition is +1 or -1,
    the second is its opposite, and every entry of the matrix is back to its
    value: the flip is undone, the entry does not leave its two values. *)
Theorem reselected_column_is_flipped_back i j adj adj1 adj2 best d1 d2 :
  reachable normalize_adj_tensor loss_grad check_adj self →
  binary adj →
  best ≠ target_node →
  attack_step normalize_adj_tensor loss_grad self modified_features
      labels idx_train target_node i adj = Ok (adj1, (best, d1)) →
  attack_step normalize_adj_tensor loss_grad self modified_features
      labels idx_train target_node j adj1 = Ok (adj2, (best, d2)) →
  (d1 == 1 ∨ d1 == -1)%Q ∧ (d2 == - d1)%Q ∧ same_entries adj2 adj.
Proof.
  intros Hzero%reachable_relaxation_zero Hbin Hne H1 H2.
  apply attack_step_zero_cells in H1 as (x & Hx & -> & _ & ->); [|done].
  apply attack_step_zero_cells in H2 as (x' & Hx' & -> & _ & ->); [|done].
  rewrite !cell_add_at in Hx'.
  rewrite decide_False in Hx' by (intros [? ?]; done).
  rewrite decide_True, Hx in Hx' by done. simplify_eq/=.
  split_and!; [by apply flip_sign_zero_or_one, (Hbin _ _ _ Hx)
              |apply flip_sign_twice|].
  intros u v. rewrite !cell_add_at.
  pose proof (flip_sign_twice x) as Htw.
  repeat case_decide; destruct_and?; simplify_eq; try done;
    match goal with
    | |- option_Forall2 _ _ (cell adj ?a ?b) => destruct (cell adj a b) as [y|]
    end; simpl; constructor; try reflexivity; lra.
Qed.

(** *** Entries 0 and 1 *)

Lemma attack_step_binary i adj adj' best value :
  relaxation_zero self →
  symmetric adj → binary adj →
  best ≠ target_node →
  step i adj = Ok (adj', (best, value)) →
  binary adj' ∧ (value == 1 ∨ value == -1)%Q.
Proof.
  intros Hzero Hsym Hbin Hne Hstep.
  apply attack_step_zero_cells in Hstep as (x & Hx & -> & _ & ->); [|done].
  destruct (flip_sign_zero_or_one x (Hbin _ _ _ Hx)) as [Hsum Hval].
  split; [|done]. intros u v y. rewrite !cell_add_at.
  repeat case_decide; destruct_and?; simplify_eq; try done.
  - rewrite (Hsym best target_node), Hx. simpl. by intros [= <-].
  - rewrite Hx. simpl. by intros [= <-].
  - apply Hbin.
Qed.

(** X5. On a symmetric matrix of entries 0 and 1, as long as no iteration
    selects the target itself, every flip adds 1 to an entry 0 or -1 to an
    entry 1, and the output has entries 0 and 1 only. *)
Theorem binary_kept_when_target_not_selected n i adj out fs :
  reachable normalize_adj_tensor loss_grad check_adj self →
  symmetric adj → binary adj →
  attack_loop normalize_adj_tensor loss_grad self modified_features
      labels idx_train target_node n i adj = Ok (out, fs) →
  (∀ best delta, (best, delta) ∈ fs → best ≠ target_node) →
  binary out ∧
  ∀ best delta, (best, delta) ∈ fs → (delta == 1 ∨ delta == -1)%Q.
Proof.
  intros Hzero%reachable_relaxation_zero. revert i adj fs.
  induction n as [|n IH]; intros i adj fs Hsym Hbin H Hne.
  - simplify_eq/=. split; [done|]. intros b d Hin. by apply elem_of_nil in Hin.
  - apply attack_loop_S_Ok in H as (adj1 & [b v] & fs' & Hstep & Hloop & ->).
    assert (b ≠ target_node) as Hb by (eapply Hne; left).
    destruct (attack_step_binary _ _ _ _ _ Hzero Hsym Hbin Hb Hstep) as [Hbin1 Hv].
    assert (symmetric adj1) as Hsym1 by (by eapply attack_step_symmetric).
    destruct (IH _ _ _ Hsym1 Hbin1 Hloop) as [Hout Hds].
    { intros b' d' Hin. eapply Hne. by right. }
    split; [done|]. intros b' d' [[= -> ->]|Hin]%elem_of_cons; [done|].
    by eapply Hds.
Qed.

(** The self entry along the loop: it stays a whole number, and once it is
    not 0 or 1 (as after a selection of the target) it never is again. *)
Lemma attack_loop_self_entry_integral n i adj out fs x :
  relaxation_zero self →
  loop n i adj = Ok (out, fs) →
  cell adj target_node target_node = Some x →
  integral x →
  ∃ y, cell out target_node target_node = Some y ∧
       integral y ∧
       ((¬ zero_or_one x ∨ ∃ delta, (target_node, delta) ∈ fs) → ¬ zero_or_one y).
Proof.
  intros Hzero. revert i adj fs x.
  induction n as [|n IH]; intros i adj fs x H Hx Hint.
  - simplify_eq/=. exists x. split_and!; [done|done|].
    intros [?|[d Hin]]; [done|]. by apply elem_of_nil in Hin.
  - apply attack_loop_S_Ok in H as (adj1 & [b v] & fs' & Hstep & Hloop & ->).
    apply attack_step_zero_cells in Hstep as (x' & Hx' & -> & _ & ->); [|done].
    destruct (decide (b = target_node)) as [->|Hb].
    + assert (x' = x) as -> by congruence.
      destruct (self_flip_integral x Hint) as [Hint' Hbad].
      destruct (IH _ _ _ (x + flip_sign x + flip_sign x)%Q Hloop) as (y & Hy & Hyi & Hyb).
      { rewrite !cell_add_at, !decide_True by done. by rewrite Hx. }
      { done. }
      exists y. split_and!; [done|done|]. intros _. apply Hyb. by left.
    + destruct (IH _ _ _ x Hloop) as (y & Hy & Hyi & Hyb).
      { rewrite !cell_add_at. by rewrite !decide_False by (intros [? ?]; done). }
      { done. }
      exists y. split_and!; [done|done|].
      intros [Hbad|[d Hin]]; apply Hyb; [by left|right].
      apply elem_of_cons in Hin as [[= ? ?]|Hin]; [done|by exists d].
Qed.

(** X6. When the check of the base class accepts only matrices of entries 0
    and 1, a call of [attack] on such a matrix that returns has not selected
    the target in any iteration, and the self entry of the target is in the
    output what it was in the input. *)
Theorem accepted_output_keeps_self_entry ori_adj n self' :
  (∀ m, check_adj m = Ok () → binary m) →
  reachable normalize_adj_tensor loss_grad check_adj self →
  binary ori_adj →
  attack normalize_adj_tensor loss_grad check_adj self modified_features
      labels idx_train target_node ori_adj n = Ok self' →
  ∃ out fs,
    attack_loop normalize_adj_tensor loss_grad self modified_features
      labels idx_train target_node n 0 ori_adj = Ok (out, fs) ∧
    modified_adj self' = Some out ∧
    (∀ best delta, (best, delta) ∈ fs → best ≠ target_node) ∧
    cell out target_node target_node = cell ori_adj target_node target_node.
Proof.
  intros Hcheck Hzero%reachable_relaxation_zero Hbin
    (out & fs & Hloop & Haccept%Hcheck & ->)%attack_Ok.
  assert (∀ best delta, (best, delta) ∈ fs → best ≠ target_node) as Hne.
  { intros best delta Hin ->.
    destruct (attack_loop_flips_in_range _ _ _ _ _ _ _ Hzero Hloop Hin) as [[x Hx] _].
    destruct (attack_loop_self_entry_integral _ _ _ _ _ x Hzero Hloop Hx)
      as (y & Hy & _ & Hbad).
    { apply zero_or_one_integral. by eapply Hbin. }
    apply Hbad; [right; by exists delta|]. by eapply Haccept. }
  exists out, fs. split_and!; [done|done|done|].
  by eapply attack_loop_self_entry.
Qed.

(** *** Calls that raise *)

Lemma attack_first_step_raises ori_adj n e :
  step 0 ori_adj = Raise e → run ori_adj (S n) = Raise e.
Proof. intros H. unfold attack. simpl. by rewrite H. Qed.

(** X7. An instance built without [attack_structure] has no relaxation
    vector: a call of [attack] with a positive budget on a target that is a
    row of the matrix raises the attribute error of the first line of the
    loop. *)
Theorem attack_without_structure_raises ori_adj n :
  reachable normalize_adj_tensor loss_grad check_adj self →
  attack_structure self = false →
  target_node < length ori_adj →
  attack normalize_adj_tensor loss_grad check_adj self modified_features
      labels idx_train target_node ori_adj (S n) = Raise AttributeError.
Proof.
  intros [_ Hac]%reachable_invariant Hs Ht. rewrite Hs in Hac.
  destruct (lookup_lt_is_Some_2 ori_adj target_node Ht) as [row Hrow].
  apply attack_first_step_raises. unfold attack_step, index.
  rewrite Hrow. simpl. by rewrite Hac.
Qed.

(** X8. A target that is not a row of the matrix, as is every target for
    the empty matrix, makes a call with a positive budget raise the index
    error of the first line of the loop, on every instance, with or without
    a relaxation vector. *)
Theorem target_out_of_range_raises ori_adj n :
  length ori_adj ≤ target_node →
  attack normalize_adj_tensor loss_grad check_adj self modified_features
      labels idx_train target_node ori_adj (S n) = Raise IndexError.
Proof.
  intros Ht. apply attack_first_step_raises. unfold attack_step, index.
  by rewrite (lookup_ge_None_2 ori_adj target_node Ht).
Qed.

(** X9. When the node count given to the constructor is neither the length
    of the rows of the matrix nor 1, a call with a positive budget raises
    the shape error of the row addition or of the row write. *)
Theorem wrong_node_count_raises ori_adj n row :
  reachable normalize_adj_tensor loss_grad check_adj self →
  attack_structure self = true →
  ori_adj !! target_node = Some row →
  length row ≠ nnodes self →
  nnodes self ≠ 1 →
  attack normalize_adj_tensor loss_grad check_adj self modified_features
      labels idx_train target_node ori_adj (S n) = Raise RuntimeError.
Proof.
  intros [_ Hac]%reachable_invariant Hs Hrow Hlen Hone. rewrite Hs in Hac.
  apply attack_first_step_raises. unfold attack_step.
  unfold index. rewrite Hrow. simpl. rewrite Hac. simpl.
  unfold broadcast. rewrite length_replicate, decide_False by done.
  destruct (nnodes self) as [|[|k]] eqn:Hk; [|done|].
  - destruct row as [|x [|y row]]; simpl; [done| |done].
    unfold setitem_row, index. rewrite Hrow. simpl. done.
  - destruct row as [|x [|y row]]; simpl; [done| |done].
    unfold setitem_row, index. rewrite Hrow. simpl. done.
Qed.

(** The loop of [k + m] iterations is the loop of [k] iterations followed
    by the loop of [m] iterations. *)
Lemma attack_loop_app k m i adj adj_k fs_k :
  loop k i adj = Ok (adj_k, fs_k) →
  loop (k + m) i adj =
  loop m (i + k) adj_k ≫= λ '(out, fs_m), Ok (out, fs_k ++ fs_m).
Proof.
  revert i adj fs_k. induction k as [|k IH]; intros i adj fs_k H.
  - simplify_eq/=. rewrite Nat.add_0_r.
    by destruct (loop m i adj_k) as [[out fs_m]|e].
  - apply attack_loop_S_Ok in H as (adj1 & f & fs' & Hstep & Hloop & ->).
    change (S k + m) with (S (k + m)). rewrite attack_loop_S, Hstep. simpl.
    rewrite (IH _ _ _ Hloop), Nat.add_succ_r. simpl.
    by destruct (loop m (S (i + k)) adj_k) as [[out fs_m]|e].
Qed.

(** X10. A failure of the normalisation or of the gradient computation in
    any iteration ends the call with that error: the flips made so far are
    dropped and no result is stored. *)
Theorem collaborator_failure_aborts_attack N ori_adj k m adj_k fs_k e :
  reachable normalize_adj_tensor loss_grad check_adj self →
  attack_structure self = true →
  nnodes self = N →
  square N ori_adj →
  target_node < N →
  attack_loop normalize_adj_tensor loss_grad self modified_features
      labels idx_train target_node k 0 ori_adj = Ok (adj_k, fs_k) →
  (normalize_adj_tensor adj_k = Raise e ∨
   ∃ norm, normalize_adj_tensor adj_k = Ok norm ∧
           loss_grad k modified_features adj_k norm labels idx_train = Raise e) →
  attack normalize_adj_tensor loss_grad check_adj self modified_features
      labels idx_train target_node ori_adj (k + S m) = Raise e.
Proof.
  intros [_ Hac]%reachable_invariant Hs HN Hsq Ht Hloop Hfail.
  rewrite Hs, HN in Hac.
  assert (square N adj_k) as Hsqk.
  { eapply same_shape_square; [|done]. by eapply attack_loop_same_shape. }
  destruct (lookup_lt_is_Some_2 adj_k target_node) as [row Hrow].
  { by rewrite (proj1 Hsqk). }
  assert (step k adj_k = Raise e) as Hstep.
  { unfold attack_step.
    unfold index. rewrite Hrow. simpl. rewrite Hac. simpl.
    rewrite <- (proj2 Hsqk _ _ Hrow), broadcast_zero. simpl.
    rewrite (setitem_row_same _ _ _ Hrow). simpl.
    destruct Hfail as [->|(norm & -> & Hgrad)]; [done|]. simpl.
    unfold select. by rewrite Hs, Hgrad. }
  unfold attack. rewrite (attack_loop_app _ _ _ _ _ _ Hloop). simpl.
  by rewrite Hstep.
Qed.

(** X11. The result field of an instance in use, when it is set, holds a
    matrix that the check of the base class accepted. *)
Theorem stored_result_was_accepted m :
  reachable normalize_adj_tensor loss_grad check_adj self →
  modified_adj self = Some m →
  check_adj m = Ok ().
Proof.
  intros Hreach. revert m.
  induction Hreach as [n fsh st ft self0 Hinit
                      |self0 feats adj lbl idx t n self' _ IH Hatt]; intros m Hm.
  - apply FGA_init_Ok in Hinit as [-> ->]. done.
  - apply attack_Ok in Hatt as (out & fs & _ & Hcheck & ->).
    simpl in Hm. by simplify_eq.
Qed.

(** *** Which column is selected *)

Lemma adjusted_score_lookup (grad row : tensor1) (t c : nat) (g r : Q) :
  length grad = length row →
  grad !! c = Some g → row !! c = Some r →
  adjusted_score grad row t !! c
  = Some (if decide (c = t) then 0%Q else (g * ((-2 # 1) * r + 1))%Q).
Proof.
  intros Hlen Hg Hr. unfold adjusted_score, direction.
  assert (zip_with Qmult grad ((λ c0, ((-2 # 1) * c0 + 1)%Q) <$> row) !! c
          = Some (g * ((-2 # 1) * r + 1))%Q) as Hz.
  { by rewrite lookup_zip_with, Hg, list_lookup_fmap, Hr. }
  destruct (decide (c = t)) as [->|Hne].
  - apply list_lookup_insert_eq. by eapply lookup_lt_Some.
  - by rewrite list_lookup_insert_ne.
Qed.

Lemma adjusted_score_lookup_inv (grad row : tensor1) (t c : nat) (s : Q) :
  adjusted_score grad row t !! c = Some s →
  c ≠ t →
  ∃ g r, grad !! c = Some g ∧ row !! c = Some r ∧ s = (g * ((-2 # 1) * r + 1))%Q.
Proof.
  unfold adjusted_score, direction. intros Hs Hne.
  rewrite list_lookup_insert_ne in Hs by done.
  rewrite lookup_zip_with in Hs.
  destruct (grad !! c) as [g|]; simpl in Hs; [|done].
  rewrite list_lookup_fmap in Hs.
  destruct (row !! c) as [r|]; simpl in Hs; [|done].
  exists g, r. by simplify_eq.
Qed.

Section Selection.

Variable N i : nat.
Variable adj norm : tensor2.
Variable row grad : tensor1.

Hypothesis Hreach : in_use self.
Hypothesis Hstructure : attack_structure self = true.
Hypothesis Hnodes : nnodes self = N.
Hypothesis Hsquare : square N adj.
Hypothesis Hrow : adj !! target_node = Some row.
Hypothesis Hnorm : normalize_adj_tensor adj = Ok norm.
Hypothesis Hgrad :
  loss_grad i modified_features adj norm labels idx_train = Ok grad.
Hypothesis Hlen : length grad = N.

Lemma step_selects :
  ∃ best x,
    first_max (adjusted_score grad row target_node) best ∧
    row !! best = Some x ∧
    step i adj =
      Ok (add_at (add_at adj target_node best (flip_sign x))
                 best target_node (flip_sign x),
          (best, flip_sign x)).
Proof.
  destruct (reachable_invariant _ _ _ _ Hreach) as [_ Hac].
  rewrite Hstructure, Hnodes in Hac.
  destruct (attack_step_total normalize_adj_tensor loss_grad self modified_features
              labels idx_train target_node N i adj row norm grad)
    as (best & x & Hbest%argmax_first_max & Hx & _ & Hstep); [done..|].
  by exists best, x.
Qed.

Lemma target_score_zero :
  adjusted_score grad row target_node !! target_node = Some 0%Q.
Proof.
  unfold adjusted_score, direction. apply list_lookup_insert_eq.
  rewrite length_zip_with, length_fmap, Hlen, (proj2 Hsquare _ _ Hrow).
  apply lookup_lt_Some in Hrow. rewrite (proj1 Hsquare) in Hrow. lia.
Qed.

(** X12. When the adjusted score of some column other than the target is
    positive, the iteration does not select the target: the zeroed entry
    of the target is below the maximum. *)
Theorem target_not_selected_when_a_score_is_positive c g r :
  c ≠ target_node →
  grad !! c = Some g → row !! c = Some r →
  (0 < g * ((-2 # 1) * r + 1))%Q →
  ∃ best delta adj',
    attack_step normalize_adj_tensor loss_grad self modified_features
      labels idx_train target_node i adj = Ok (adj', (best, delta)) ∧ best ≠ target_node.
Proof.
  intros Hc Hg Hr Hpos.
  destruct step_selects as (best & x & (s & Hs & Hmax & _) & Hx & Hstep).
  eexists best, _, _. split; [exact Hstep|]. intros ->.
  rewrite target_score_zero in Hs. simplify_eq.
  apply (Qlt_irrefl 0). eapply Qlt_le_trans; [exact Hpos|].
  apply (Hmax c). rewrite (adjusted_score_lookup _ _ _ _ g r); [|..|done|done].
  - by rewrite decide_False.
  - rewrite Hlen. symmetry. by eapply (proj2 Hsquare).
Qed.

(** X13. When the adjusted score of every column other than the target is
    negative, the iteration selects the target itself: setting its score to
    0 makes it the maximum. *)
Theorem target_selected_when_all_scores_are_negative :
  (∀ c g r, c ≠ target_node →
            grad !! c = Some g → row !! c = Some r →
            (g * ((-2 # 1) * r + 1) < 0)%Q) →
  ∃ delta adj', attack_step normalize_adj_tensor loss_grad self modified_features
      labels idx_train target_node i adj = Ok (adj', (target_node, delta)).
Proof.
  intros Hneg.
  destruct step_selects as (best & x & Hbest & Hx & Hstep).
  assert (best = target_node) as ->; [|by eauto].
  destruct Hbest as (s & Hs & Hmax & _).
  destruct (decide (best = target_node)) as [|Hne]; [done|exfalso].
  destruct (adjusted_score_lookup_inv _ _ _ _ _ Hs Hne) as (g & r & Hg & Hr & ->).
  apply (Qlt_irrefl 0). eapply Qle_lt_trans; [|by eapply Hneg].
  apply (Hmax target_node). apply target_score_zero.
Qed.

(** X14. When the gradient vanishes, all adjusted scores are equal and the
    first index wins: the iteration flips the entry of column 0, whatever
    the target is. *)
Theorem zero_gradient_selects_column_zero :
  (∀ c g, grad !! c = Some g → (g == 0)%Q) →
  ∃ delta adj', attack_step normalize_adj_tensor loss_grad self modified_features
      labels idx_train target_node i adj = Ok (adj', (0, delta)).
Proof.
  intros Hzero.
  destruct step_selects as (best & x & (s & Hs & _ & Hfirst) & Hx & Hstep).
  assert (∀ c y, adjusted_score grad row target_node !! c = Some y → (y == 0)%Q)
    as Hall.
  { intros c y Hy. destruct (decide (c = target_node)) as [->|Hne].
    - rewrite target_score_zero in Hy. by simplify_eq.
    - destruct (adjusted_score_lookup_inv _ _ _ _ _ Hy Hne) as (g & r & Hg & _ & ->).
      rewrite (Hzero _ _ Hg). ring. }
  assert (best = 0) as ->; [|by eauto].
  destruct best as [|b]; [done|exfalso].
  destruct (lookup_lt_is_Some_2 (adjusted_score grad row target_node) 0) as [y Hy].
  { apply lookup_lt_Some in Hs. lia. }
  pose proof (Hfirst 0 y ltac:(lia) Hy) as Hlt.
  rewrite (Hall _ _ Hy), (Hall _ _ Hs) in Hlt. by apply Qlt_irrefl in Hlt.
Qed.

End Selection.

(** *** Calls in sequence *)

Lemma argmax_from_scaled (c : Q) (s1 s2 : tensor1) :
  (0 < c)%Q → scaled_by c s1 s2 →
  ∀ b v1 v2 i, (v1 == c * v2)%Q →
  argmax_from b v1 i s1 = argmax_from b v2 i s2.
Proof.
  intros Hc Hs. induction Hs as [|x y s1 s2 Hxy Hs IH]; intros b v1 v2 i Hv; [done|].
  simpl. assert (Qltb v1 x = Qltb v2 y) as ->.
  { unfold Qltb. f_equal. apply eq_true_iff_eq.
    rewrite !Qle_bool_iff, Hxy, Hv. by apply Qmult_le_l. }
  destruct (Qltb v2 y); by apply IH.
Qed.

Lemma argmax_scaled (c : Q) (s1 s2 : tensor1) :
  (0 < c)%Q → scaled_by c s1 s2 → argmax s1 = argmax s2.
Proof.
  intros Hc Hs. destruct Hs as [|x y s1 s2 Hxy Hs]; [done|].
  simpl. f_equal. by apply (argmax_from_scaled c).
Qed.

Lemma scaled_by_zip (c : Q) (g d : tensor1) :
  scaled_by c (zip_with Qmult (Qmult c <$> g) d) (zip_with Qmult g d).
Proof.
  revert d. induction g as [|x g IH]; intros [|y d]; simpl; try constructor.
  - ring.
  - apply IH.
Qed.

Lemma scaled_by_fmap_l (c y : Q) (g : tensor1) :
  scaled_by c ((λ x, x * y)%Q <$> (Qmult c <$> g)) ((λ x, x * y)%Q <$> g).
Proof.
  induction g as [|x g IH]; simpl; constructor; [ring|apply IH].
Qed.

Lemma scaled_by_fmap_r (c x : Q) (d : tensor1) :
  scaled_by c (Qmult (c * x) <$> d) (Qmult x <$> d).
Proof.
  induction d as [|y d IH]; simpl; constructor; [ring|apply IH].
Qed.

Lemma broadcast_scaled (c : Q) (g d : tensor1) :
  match broadcast Qmult (Qmult c <$> g) d, broadcast Qmult g d with
  | Ok s1, Ok s2 => scaled_by c s1 s2
  | Raise e1, Raise e2 => e1 = e2
  | _, _ => False
  end.
Proof.
  unfold broadcast. rewrite length_fmap.
  destruct (decide (length g = length d)); [apply scaled_by_zip|].
  destruct g as [|x [|x' g]], d as [|y [|y' d]]; simpl; try done;
    try (by constructor).
  - apply (scaled_by_fmap_r c x (y :: y' :: d)).
  - apply (scaled_by_fmap_l c y (x :: x' :: g)).
Qed.

Lemma choose_scaled (c : Q) (g row : tensor1) (t : nat) :
  (0 < c)%Q →
  (broadcast Qmult (Qmult c <$> g) (flip_sign <$> row)
     ≫= λ s, setitem s t 0%Q ≫= argmax) =
  (broadcast Qmult g (flip_sign <$> row) ≫= λ s, setitem s t 0%Q ≫= argmax).
Proof.
  intros Hc. pose proof (broadcast_scaled c g (flip_sign <$> row)) as H.
  destruct (broadcast Qmult (Qmult c <$> g) _) as [s1|e1],
           (broadcast Qmult g _) as [s2|e2]; simpl; try done; [|by subst].
  unfold setitem. rewrite (Forall2_length _ _ _ H).
  case_decide; [simpl|done].
  apply (argmax_scaled c); [done|].
  apply Forall2_insert; [done|]. ring.
Qed.

(** A gradient that is, in every iteration, a positive multiple of one and
    the same function of the matrix selects the same column in every
    iteration. *)
Lemma selection_invariant_when_gradient_scales
    (base : tensor2 → tensor2 → result tensor1) (c : nat → Q) :
  (∀ i, (0 < c i)%Q) →
  (∀ i m norm,
     loss_grad i modified_features m norm labels idx_train
     = base m norm ≫= λ g : tensor1, Ok (Qmult (c i) <$> g)) →
  ∀ i j m norm row,
    select loss_grad self modified_features labels idx_train target_node
           i m norm row
    = select loss_grad self modified_features labels idx_train target_node
             j m norm row.
Proof.
  intros Hc Hgrad i j m norm row. unfold select.
  destruct (attack_structure self); [|done].
  rewrite !Hgrad. destruct (base m norm) as [g|e]; simpl; [|done].
  etrans; [by apply (choose_scaled (c i))|].
  symmetry. by apply (choose_scaled (c j)).
Qed.

Lemma attack_loop_index_irrelevant n i j adj :
  (∀ i j m norm row,
     select loss_grad self modified_features labels idx_train target_node
            i m norm row
     = select loss_grad self modified_features labels idx_train target_node
              j m norm row) →
  loop n i adj = loop n j adj.
Proof.
  intros Hind. revert i j adj. induction n as [|n IH]; intros i j adj; [done|].
  rewrite !attack_loop_S.
  assert (step i adj = step j adj) as ->.
  { unfold attack_step. do 5 (apply bind_ext; intros ?).
    by rewrite (Hind i j). }
  apply bind_ext. intros [adj1 f]. by rewrite (IH (S i) (S j)).
Qed.

Lemma attack_loop_with_modified_adj m n i adj :
  attack_loop normalize_adj_tensor loss_grad (with_modified_adj self m)
              modified_features labels idx_train target_node n i adj
  = loop n i adj.
Proof. revert i adj. induction n as [|n IH]; intros i adj; [done|]. simpl.
  apply bind_ext. intros [adj1 f]. by rewrite IH.
Qed.

(** X15. When the column selected for a matrix does not depend on the
    iteration (as when the gradient of iteration [i] is a positive multiple
    of one function of the matrix), two calls in sequence, the second on the
    output of the first, spend their budgets as one call with the sum of the
    budgets does: the same instance with the same output results. *)
Theorem attack_calls_compose ori_adj k m self1 mid self2 :
  (∀ i j a norm row,
     select loss_grad self modified_features labels idx_train target_node
            i a norm row
     = select loss_grad self modified_features labels idx_train target_node
              j a norm row) →
  attack normalize_adj_tensor loss_grad check_adj self modified_features
      labels idx_train target_node ori_adj k = Ok self1 →
  modified_adj self1 = Some mid →
  attack normalize_adj_tensor loss_grad check_adj self1 modified_features
         labels idx_train target_node mid m = Ok self2 →
  attack normalize_adj_tensor loss_grad check_adj self modified_features
      labels idx_train target_node ori_adj (k + m) = Ok self2.
Proof.
  intros Hind (out1 & fs1 & Hloop1 & _ & ->)%attack_Ok Hmid
    (out2 & fs2 & Hloop2 & Hcheck & ->)%attack_Ok.
  simpl in Hmid. simplify_eq.
  rewrite attack_loop_with_modified_adj in Hloop2.
  apply attack_Ok. exists out2, (fs1 ++ fs2). split_and!; [|done|done].
  rewrite (attack_loop_app _ _ _ _ _ _ Hloop1).
  rewrite (attack_loop_index_irrelevant m (0 + k) 0 mid Hind), Hloop2. done.
Qed.

End MoreCallFacts.
End MoreFacts.

(** * Further concrete runs *)

Lemma stub_check_binary_sound (m : tensor2) :
  stub_check_binary m = Ok () → binary m.
Proof.
  unfold stub_check_binary, assert.
  destruct (forallb _ m) eqn:Hall; [|done]. intros _ u v x.
  unfold cell. destruct (m !! u) as [row|] eqn:Hrow; simpl; [|done]. intros Hx.
  rewrite forallb_forall in Hall.
  specialize (Hall row). rewrite <- list_elem_of_In in Hall.
  specialize (Hall (list_elem_of_lookup_2 _ _ _ Hrow)).
  rewrite forallb_forall in Hall.
  specialize (Hall x). rewrite <- list_elem_of_In in Hall.
  specialize (Hall (list_elem_of_lookup_2 _ _ _ Hx)).
  apply orb_true_iff in Hall as [H|H]; apply Qeq_bool_iff in H; auto.
Qed.

Lemma output_has_input_shape_witness :
  ∃ out, modified_adj (with_modified_adj fga4 ring4_attacked) = Some out ∧
         same_shape out ring4 ∧
         ∀ N, square N ring4 → square N out.
Proof.
  apply (output_has_input_shape stub_normalize stub_grad stub_check fga4
           ring4_features ring4_labels [1; 2] 1 ring4 3).
  vm_compute. reflexivity.
Defined.

Lemma only_selected_pairs_written_witness :
  (∀ u v,
     (∀ best delta,
        (best, delta) ∈ [(2, (-1)%Q); (3, 1%Q); (0, (-1)%Q)] →
        ¬ flipped_pair 1 best u v) →
     cell ring4_attacked u v = cell ring4 u v) ∧
  (∀ best delta,
     (best, delta) ∈ [(2, (-1)%Q); (3, 1%Q); (0, (-1)%Q)] →
     is_Some (cell ring4 1 best) ∧ is_Some (cell ring4 best 1)).
Proof.
  apply (only_selected_pairs_written stub_normalize stub_grad stub_check fga4
           ring4_features ring4_labels [1; 2] 1 3 0 ring4).
  - apply (reachable_init _ _ _ 4 (0, 0) true false). reflexivity.
  - vm_compute. reflexivity.
Defined.

Lemma self_selection_writes_self_entry_twice_witness :
  ∃ x, cell ring4 0 0 = Some x ∧
       1%Q = flip_sign x ∧
       cell ring4_self_flipped 0 0 = Some (x + 1 + 1)%Q ∧
       (∀ u v, ¬ (u = 0 ∧ v = 0) → cell ring4_self_flipped u v = cell ring4 u v) ∧
       (zero_or_one x → ¬ zero_or_one (x + 1 + 1)).
Proof.
  apply (self_selection_writes_self_entry_twice stub_normalize stub_grad stub_check
           fga4 ring4_features ring4_labels [1; 2] 0 0 ring4).
  - apply (reachable_init _ _ _ 4 (0, 0) true false). reflexivity.
  - vm_compute. reflexivity.
Defined.

Lemma reselected_column_is_flipped_back_witness :
  binary ring4 ∧
  (-1 == 1 ∨ -1 == -1)%Q ∧ (1 == - -1)%Q ∧ same_entries ring4 ring4.
Proof.
  assert (binary ring4) as Hbin.
  { intros [|[|[|[|u]]]] [|[|[|[|v]]]] x Hx; simpl in Hx; inversion Hx;
      ((left; reflexivity) || (right; reflexivity)). }
  split; [exact Hbin|].
  apply (reselected_column_is_flipped_back stub_normalize zero_grad stub_check
           fga4 ring4_features ring4_labels [1; 2] 1 0 1 ring4 ring4_less_01 ring4 0).
  - apply (reachable_init _ _ _ 4 (0, 0) true false). reflexivity.
  - exact Hbin.
  - lia.
  - vm_compute. reflexivity.
  - vm_compute. reflexivity.
Defined.

Lemma binary_kept_when_target_not_selected_witness :
  binary ring4 ∧
  binary ring4_attacked ∧
  ∀ best delta,
    (best, delta) ∈ [(2, (-1)%Q); (3, 1%Q); (0, (-1)%Q)] →
    (delta == 1 ∨ delta == -1)%Q.
Proof.
  assert (binary ring4) as Hbin.
  { intros [|[|[|[|u]]]] [|[|[|[|v]]]] x Hx; simpl in Hx; inversion Hx;
      ((left; reflexivity) || (right; reflexivity)). }
  split; [exact Hbin|].
  apply (binary_kept_when_target_not_selected stub_normalize stub_grad stub_check
           fga4 ring4_features ring4_labels [1; 2] 1 3 0 ring4).
  - apply (reachable_init _ _ _ 4 (0, 0) true false). reflexivity.
  - intros [|[|[|[|u]]]] [|[|[|[|v]]]]; reflexivity.
  - exact Hbin.
  - vm_compute. reflexivity.
  - intros best delta Hin. repeat (apply elem_of_cons in Hin as [Hin|Hin]);
      [inversion Hin; lia..|by apply elem_of_nil in Hin].
Defined.

Lemma accepted_output_keeps_self_entry_witness :
  ∃ out fs,
    attack_loop stub_normalize stub_grad fga4 ring4_features ring4_labels [1; 2]
                1 3 0 ring4 = Ok (out, fs) ∧
    modified_adj (with_modified_adj fga4 ring4_attacked) = Some out ∧
    (∀ best delta, (best, delta) ∈ fs → best ≠ 1) ∧
    cell out 1 1 = cell ring4 1 1.
Proof.
  apply (accepted_output_keeps_self_entry stub_normalize stub_grad stub_check_binary
           fga4 ring4_features ring4_labels [1; 2] 1 ring4 3).
  - apply stub_check_binary_sound.
  - apply (reachable_init _ _ _ 4 (0, 0) true false). reflexivity.
  - intros [|[|[|[|u]]]] [|[|[|[|v]]]] x Hx; simpl in Hx; inversion Hx;
      ((left; reflexivity) || (right; reflexivity)).
  - vm_compute. reflexivity.
Defined.

Lemma attack_without_structure_raises_witness :
  attack stub_normalize stub_grad stub_check fga4_no_structure ring4_features
         ring4_labels [1; 2] 1 ring4 3 = Raise AttributeError.
Proof.
  apply (attack_without_structure_raises stub_normalize stub_grad stub_check
           fga4_no_structure ring4_features ring4_labels [1; 2] 1 ring4 2).
  - apply (reachable_init _ _ _ 4 (0, 0) false false). reflexivity.
  - reflexivity.
  - simpl. lia.
Defined.

Lemma target_out_of_range_raises_witness :
  attack stub_normalize stub_grad stub_check fga4_no_structure ring4_features
         ring4_labels [1; 2] 7 ring4 3 = Raise IndexError.
Proof.
  apply (target_out_of_range_raises stub_normalize stub_grad stub_check
           fga4_no_structure ring4_features ring4_labels [1; 2] 7 ring4 2).
  simpl. lia.
Defined.

Lemma wrong_node_count_raises_witness :
  attack stub_normalize stub_grad stub_check fga3 ring4_features ring4_labels
         [1; 2] 1 ring4 3 = Raise RuntimeError.
Proof.
  apply (wrong_node_count_raises stub_normalize stub_grad stub_check fga3
           ring4_features ring4_labels [1; 2] 1 ring4 2 [1; 0; 1; 0]%Q).
  - apply (reachable_init _ _ _ 3 (0, 0) true false). reflexivity.
  - reflexivity.
  - reflexivity.
  - simpl. lia.
  - simpl. lia.
Defined.

Lemma collaborator_failure_aborts_attack_witness :
  attack stub_normalize failing_grad stub_check fga4 ring4_features ring4_labels
         [1; 2] 1 ring4 (2 + 1)
  = Raise (ExternalError "model evaluation failed").
Proof.
  apply (collaborator_failure_aborts_attack stub_normalize failing_grad stub_check
           fga4 ring4_features ring4_labels [1; 2] 1 4 ring4 2 0
           ring4_two_flips [(2, (-1)%Q); (3, 1%Q)]).
  - apply (reachable_init _ _ _ 4 (0, 0) true false). reflexivity.
  - reflexivity.
  - reflexivity.
  - split; [reflexivity|].
    intros [|[|[|[|u]]]] row Hrow; simpl in Hrow; inversion Hrow; reflexivity.
  - lia.
  - vm_compute. reflexivity.
  - right. eexists. split; reflexivity.
Defined.

Lemma stored_result_was_accepted_witness :
  stub_check_binary ring4_attacked = Ok ().
Proof.
  apply (stored_result_was_accepted stub_normalize stub_grad stub_check_binary
           (with_modified_adj fga4 ring4_attacked) ring4_attacked).
  - apply (reachable_attack _ _ _ fga4 ring4_features ring4 ring4_labels [1; 2] 1 3).
    + apply (reachable_init _ _ _ 4 (0, 0) true false). reflexivity.
    + vm_compute. reflexivity.
  - reflexivity.
Defined.

Lemma target_not_selected_when_a_score_is_positive_witness :
  ∃ best delta adj',
    attack_step stub_normalize stub_grad fga4 ring4_features ring4_labels [1; 2]
                1 0 ring4 = Ok (adj', (best, delta)) ∧
    best ≠ 1.
Proof.
  apply (target_not_selected_when_a_score_is_positive stub_normalize stub_grad
           stub_check fga4 ring4_features ring4_labels [1; 2] 1 4 0 ring4 ring4
           [1; 0; 1; 0]%Q [0; 5; -3; 1]%Q)
    with (c := 2) (g := (-3)%Q) (r := 1%Q).
  - apply (reachable_init _ _ _ 4 (0, 0) true false). reflexivity.
  - reflexivity.
  - reflexivity.
  - split; [reflexivity|].
    intros [|[|[|[|u]]]] row Hrow; simpl in Hrow; inversion Hrow; reflexivity.
  - reflexivity.
  - reflexivity.
  - reflexivity.
  - reflexivity.
  - lia.
  - reflexivity.
  - reflexivity.
  - reflexivity.
Defined.

Lemma target_selected_when_all_scores_are_negative_witness :
  ∃ delta adj',
    attack_step stub_normalize stub_grad fga4 ring4_features ring4_labels [1; 2]
                0 0 ring4 = Ok (adj', (0, delta)).
Proof.
  apply (target_selected_when_all_scores_are_negative stub_normalize stub_grad
           stub_check fga4 ring4_features ring4_labels [1; 2] 0 4 0 ring4 ring4
           [0; 1; 0; 1]%Q [0; 5; -3; 1]%Q).
  - apply (reachable_init _ _ _ 4 (0, 0) true false). reflexivity.
  - reflexivity.
  - reflexivity.
  - split; [reflexivity|].
    intros [|[|[|[|u]]]] row Hrow; simpl in Hrow; inversion Hrow; reflexivity.
  - reflexivity.
  - reflexivity.
  - reflexivity.
  - reflexivity.
  - intros [|[|[|[|c]]]] g r Hc Hg Hr; simpl in Hg, Hr; inversion Hg; inversion Hr;
      try lia; reflexivity.
Defined.

Lemma zero_gradient_selects_column_zero_witness :
  ∃ delta adj',
    attack_step stub_normalize zero_grad fga4 ring4_features ring4_labels [1; 2]
                1 0 ring4 = Ok (adj', (0, delta)).
Proof.
  apply (zero_gradient_selects_column_zero stub_normalize zero_grad
           stub_check fga4 ring4_features ring4_labels [1; 2] 1 4 0 ring4 ring4
           [1; 0; 1; 0]%Q [0; 0; 0; 0]%Q).
  - apply (reachable_init _ _ _ 4 (0, 0) true false). reflexivity.
  - reflexivity.
  - reflexivity.
  - split; [reflexivity|].
    intros [|[|[|[|u]]]] row Hrow; simpl in Hrow; inversion Hrow; reflexivity.
  - reflexivity.
  - reflexivity.
  - reflexivity.
  - reflexivity.
  - intros [|[|[|[|c]]]] g Hg; simpl in Hg; inversion Hg; reflexivity.
Defined.

Lemma attack_calls_compose_witness :
  attack stub_normalize scaled_grad stub_check fga4 ring4_features ring4_labels
         [1; 2] 1 ring4 (1 + 2)
  = Ok (with_modified_adj fga4 ring4_attacked).
Proof.
  apply (attack_calls_compose stub_normalize scaled_grad stub_check fga4
           ring4_features ring4_labels [1; 2] 1 ring4 1 2
           (with_modified_adj fga4 ring4_one_flip) ring4_one_flip).
  - apply (selection_invariant_when_gradient_scales scaled_grad fga4
             ring4_features ring4_labels [1; 2] 1
             (λ _ _, Ok [0; 5; -3; 1]%Q)
             (λ i, inject_Z (Z.of_nat (S i)))).
    + intros i. unfold Qlt. simpl. lia.
    + intros i m norm. reflexivity.
  - vm_compute. reflexivity.
  - reflexivity.
  - vm_compute. reflexivity.
Defined.
